(** * The edge gateway's streaming detection pipeline

    A shallow embedding of [raspberry-pi-gateway/live_ids.py]: payload
    decryption and checksum verification, per-topic flow timing, feature
    extraction, the detection decision, and the firewall bookkeeping,
    together with the library functions the script calls (UTF-8, CRC-32,
    PKCS#7 unpadding, AES-128 in ECB mode, binary64 arithmetic).

    Python values are embedded as follows.
    - [bytes] is [list byte]; [str] is the list of its code points ([N]).
    - [float] is Rocq's primitive binary64 [float]; the [int] 0 that
      [on_message] uses for the first time delta is the float [0], which
      is what [0 + 0.001] and [np.array] make of it.
    - [None]/[True]/[False] results are [option bool]; a raised exception
      is [None] in the option monad or [Raise] in [outcome].
    - the module globals are the fields of [ids_state]; what the
      environment answers (the classifier, the clock, the exit code of
      [iptables], whether the log file can be written) is an argument. *)

From Stdlib Require Import ZArith NArith List Bool Lia Btauto.
From Stdlib Require Import Floats Uint63.
From Stdlib Require Import Strings.Byte.
From stdpp Require Import base option list strings gmap.

Import ListNotations.
#[local] Open Scope N_scope.

(** ** Bytes and strings *)

Abbreviation pystr := (list N).
Abbreviation pybytes := (list byte).

Definition byte_of_N (n : N) : byte :=
  match Byte.of_N n with
  | Some b => b
  | None => x00
  end.

#[global] Instance byte_eq_decision : EqDecision byte := Byte.byte_eq_dec.

(** [all_bytes] lists [bytes(range(256))]. *)
Definition all_bytes : list byte :=
  map (fun n => byte_of_N (N.of_nat n)) (seq 0 256).

(** *** UTF-8, as [str.encode('utf-8')] and [bytes.decode('utf-8')] *)

Module Utf8.

Definition is_surrogate (c : N) : bool := (0xD800 <=? c) && (c <=? 0xDFFF).

(** One code point to its 1 to 4 bytes; [None] is [UnicodeEncodeError]
    (a lone surrogate; values past U+10FFFF are no code points). *)
Definition encode_char (c : N) : option pybytes :=
  if c <? 0x80 then Some [byte_of_N c]
  else if c <? 0x800 then
    Some [byte_of_N (0xC0 + c / 64); byte_of_N (0x80 + c mod 64)]
  else if c <? 0x10000 then
    if is_surrogate c then None
    else Some [byte_of_N (0xE0 + c / 4096);
               byte_of_N (0x80 + (c / 64) mod 64);
               byte_of_N (0x80 + c mod 64)]
  else if c <? 0x110000 then
    Some [byte_of_N (0xF0 + c / 262144);
          byte_of_N (0x80 + (c / 4096) mod 64);
          byte_of_N (0x80 + (c / 64) mod 64);
          byte_of_N (0x80 + c mod 64)]
  else None.

Fixpoint encode (s : pystr) : option pybytes :=
  match s with
  | [] => Some []
  | c :: t =>
    match encode_char c, encode t with
    | Some bs, Some r => Some (bs ++ r)
    | _, _ => None
    end
  end.

Definition in_range (lo hi n : N) : bool := (lo <=? n) && (n <=? hi).

(** A continuation byte, 10xxxxxx. *)
Definition is_cont (n : N) : bool := in_range 0x80 0xBF n.

(** The second byte of a 3-byte form: E0 excludes overlong forms, ED the
    surrogates. *)
Definition second_of_3 (n0 n1 : N) : bool :=
  if n0 =? 0xE0 then in_range 0xA0 0xBF n1
  else if n0 =? 0xED then in_range 0x80 0x9F n1
  else is_cont n1.

(** The second byte of a 4-byte form: F0 excludes overlong forms, F4
    stops at U+10FFFF. *)
Definition second_of_4 (n0 n1 : N) : bool :=
  if n0 =? 0xF0 then in_range 0x90 0xBF n1
  else if n0 =? 0xF4 then in_range 0x80 0x8F n1
  else is_cont n1.

(** Strict decoding; [None] is [UnicodeDecodeError]. *)
Fixpoint decode (bs : pybytes) : option pystr :=
  match bs with
  | [] => Some []
  | b0 :: r0 =>
    let n0 := Byte.to_N b0 in
    if n0 <? 0x80 then cons n0 <$> decode r0
    else if in_range 0xC2 0xDF n0 then
      match r0 with
      | b1 :: r1 =>
        let n1 := Byte.to_N b1 in
        if is_cont n1
        then cons ((n0 - 0xC0) * 64 + (n1 - 0x80)) <$> decode r1
        else None
      | _ => None
      end
    else if in_range 0xE0 0xEF n0 then
      match r0 with
      | b1 :: b2 :: r2 =>
        let n1 := Byte.to_N b1 in
        let n2 := Byte.to_N b2 in
        if second_of_3 n0 n1 && is_cont n2
        then cons ((n0 - 0xE0) * 4096 + (n1 - 0x80) * 64 + (n2 - 0x80))
               <$> decode r2
        else None
      | _ => None
      end
    else if in_range 0xF0 0xF4 n0 then
      match r0 with
      | b1 :: b2 :: b3 :: r3 =>
        let n1 := Byte.to_N b1 in
        let n2 := Byte.to_N b2 in
        let n3 := Byte.to_N b3 in
        if second_of_4 n0 n1 && is_cont n2 && is_cont n3
        then cons ((n0 - 0xF0) * 262144 + (n1 - 0x80) * 4096
                   + (n2 - 0x80) * 64 + (n3 - 0x80))
               <$> decode r3
        else None
      | _ => None
      end
    else None
  end.

End Utf8.

(** *** The [str] methods the gateway uses *)

Module Str.

(** [c in s] for a one-character [c]. *)
Definition contains (c : N) (s : pystr) : bool := existsb (N.eqb c) s.

(** Where the last [sep] of [s] cuts it, if there is one. *)
Fixpoint cut_last (sep : N) (s : pystr) : option (pystr * pystr) :=
  match s with
  | [] => None
  | c :: t =>
    match cut_last sep t with
    | Some (a, b) => Some (c :: a, b)
    | None => if c =? sep then Some ([], t) else None
    end
  end.

(** [s.rsplit(sep, 1)] for a one-character [sep]. *)
Definition rsplit1 (sep : N) (s : pystr) : list pystr :=
  match cut_last sep s with
  | Some (a, b) => [a; b]
  | None => [s]
  end.

(** [str.isspace] on one character: the code points whose bidirectional
    class is WS, B or S, or whose category is Zs. *)
Definition isspace (c : N) : bool :=
  Utf8.in_range 0x09 0x0D c || Utf8.in_range 0x1C 0x20 c
  || (c =? 0x85) || (c =? 0xA0) || (c =? 0x1680)
  || Utf8.in_range 0x2000 0x200A c
  || (c =? 0x2028) || (c =? 0x2029) || (c =? 0x202F) || (c =? 0x205F)
  || (c =? 0x3000).

Fixpoint lstrip (s : pystr) : pystr :=
  match s with
  | c :: t => if isspace c then lstrip t else s
  | [] => []
  end.

Definition rstrip (s : pystr) : pystr := rev (lstrip (rev s)).

(** [s.strip()]. *)
Definition strip (s : pystr) : pystr := lstrip (rstrip s).

(** [format(n, 'X')]: the uppercase hexadecimal digits of [n]. *)
Definition hex_digit (d : N) : N := if d <? 10 then 48 + d else 55 + d.

Fixpoint hex_digits (fuel : nat) (n : N) (acc : pystr) : pystr :=
  match fuel with
  | O => acc
  | S fuel' =>
    let acc' := hex_digit (n mod 16) :: acc in
    if n / 16 =? 0 then acc' else hex_digits fuel' (n / 16) acc'
  end.

Definition hex_upper (n : N) : pystr :=
  hex_digits (S (N.to_nat (N.log2 n))) n [].

(** [format(n, '08X')]: zero-padded on the left to at least 8 characters. *)
Definition format_08X (n : N) : pystr :=
  let d := hex_upper n in
  repeat 48 (8 - length d)%nat ++ d.

End Str.

(** *** [zlib.crc32] *)

Module Zlib.

(** One bit of the reflected CRC-32 (polynomial 0xEDB88320). *)
Definition crc_step (c : N) : N :=
  if N.odd c then N.lxor (c / 2) 0xEDB88320 else c / 2.

Definition crc_byte (c : N) (b : byte) : N :=
  N.iter 8 crc_step (N.lxor c (Byte.to_N b)).

Definition crc32 (data : pybytes) : N :=
  N.lxor (fold_left crc_byte data 0xFFFFFFFF) 0xFFFFFFFF.

End Zlib.

(** *** AES-128 (FIPS 197) in ECB mode, as [Crypto.Cipher.AES] *)

Module Aes.

(** Addition in GF(2^8): bitwise exclusive or. *)
Definition bxor (a b : byte) : byte :=
  let '(a0, (a1, (a2, (a3, (a4, (a5, (a6, a7))))))) := Byte.to_bits a in
  let '(b0, (b1, (b2, (b3, (b4, (b5, (b6, b7))))))) := Byte.to_bits b in
  Byte.of_bits (xorb a0 b0, (xorb a1 b1, (xorb a2 b2, (xorb a3 b3,
               (xorb a4 b4, (xorb a5 b5, (xorb a6 b6, xorb a7 b7))))))).

(** Multiplication by x modulo x^8 + x^4 + x^3 + x + 1. *)
Definition xtime (a : byte) : byte :=
  let '(a0, (a1, (a2, (a3, (a4, (a5, (a6, a7))))))) := Byte.to_bits a in
  Byte.of_bits (a7, (xorb a0 a7, (a1, (xorb a2 a7,
               (xorb a3 a7, (a4, (a5, a6))))))).

Definition scale (bit : bool) (a : byte) : byte := if bit then a else x00.

(** Multiplication in GF(2^8), by Horner's rule on the bits of [c]. *)
Definition gmul (c a : byte) : byte :=
  let '(c0, (c1, (c2, (c3, (c4, (c5, (c6, c7))))))) := Byte.to_bits c in
  fold_left (fun acc bit => bxor (xtime acc) (scale bit a))
            [c7; c6; c5; c4; c3; c2; c1; c0] x00.

Definition gsquare (a : byte) : byte := gmul a a.

(** The multiplicative inverse a^254 (and 0 for 0). *)
Definition ginv (a : byte) : byte :=
  let a2 := gsquare a in
  let a4 := gsquare a2 in
  let a8 := gsquare a4 in
  let a16 := gsquare a8 in
  let a32 := gsquare a16 in
  let a64 := gsquare a32 in
  let a128 := gsquare a64 in
  gmul a128 (gmul a64 (gmul a32 (gmul a16 (gmul a8 (gmul a4 a2))))).

(** The affine map of the S-box and its inverse (FIPS 197, 5.1.1, 5.3.2). *)
Definition affine (a : byte) : byte :=
  let '(a0, (a1, (a2, (a3, (a4, (a5, (a6, a7))))))) := Byte.to_bits a in
  let f x p q r s := xorb x (xorb p (xorb q (xorb r s))) in
  bxor x63
    (Byte.of_bits (f a0 a4 a5 a6 a7, (f a1 a5 a6 a7 a0, (f a2 a6 a7 a0 a1,
                  (f a3 a7 a0 a1 a2, (f a4 a0 a1 a2 a3, (f a5 a1 a2 a3 a4,
                  (f a6 a2 a3 a4 a5, f a7 a3 a4 a5 a6)))))))).

Definition inv_affine (a : byte) : byte :=
  let '(a0, (a1, (a2, (a3, (a4, (a5, (a6, a7))))))) := Byte.to_bits a in
  let f p q r := xorb p (xorb q r) in
  bxor x05
    (Byte.of_bits (f a2 a5 a7, (f a3 a6 a0, (f a4 a7 a1, (f a5 a0 a2,
                  (f a6 a1 a3, (f a7 a2 a4, (f a0 a3 a5, f a1 a4 a6)))))))).

Definition sbox_table : list byte :=
  Eval vm_compute in map (fun a => affine (ginv a)) all_bytes.

Definition inv_sbox_table : list byte :=
  Eval vm_compute in map (fun a => ginv (inv_affine a)) all_bytes.

Definition sbox (a : byte) : byte :=
  nth (Byte.to_nat a) sbox_table x00.

Definition inv_sbox (a : byte) : byte :=
  nth (Byte.to_nat a) inv_sbox_table x00.

(** The state is the 16 bytes of a block in input order, that is column
    by column: byte [r + 4c] is row [r] of column [c]. *)
Definition sub_bytes (s : pybytes) : pybytes := map sbox s.
Definition inv_sub_bytes (s : pybytes) : pybytes := map inv_sbox s.

Definition pick (s : pybytes) (idx : list nat) : pybytes :=
  map (fun i => nth i s x00) idx.

(** Row [r] moves left by [r] columns. *)
Definition shift_rows (s : pybytes) : pybytes :=
  pick s [0; 5; 10; 15; 4; 9; 14; 3; 8; 13; 2; 7; 12; 1; 6; 11]%nat.

Definition inv_shift_rows (s : pybytes) : pybytes :=
  pick s [0; 13; 10; 7; 4; 1; 14; 11; 8; 5; 2; 15; 12; 9; 6; 3]%nat.

Definition mix_column (a0 a1 a2 a3 : byte) : pybytes :=
  [bxor (gmul x02 a0) (bxor (gmul x03 a1) (bxor a2 a3));
   bxor a0 (bxor (gmul x02 a1) (bxor (gmul x03 a2) a3));
   bxor a0 (bxor a1 (bxor (gmul x02 a2) (gmul x03 a3)));
   bxor (gmul x03 a0) (bxor a1 (bxor a2 (gmul x02 a3)))].

Definition inv_mix_column (a0 a1 a2 a3 : byte) : pybytes :=
  [bxor (gmul x0e a0) (bxor (gmul x0b a1) (bxor (gmul x0d a2) (gmul x09 a3)));
   bxor (gmul x09 a0) (bxor (gmul x0e a1) (bxor (gmul x0b a2) (gmul x0d a3)));
   bxor (gmul x0d a0) (bxor (gmul x09 a1) (bxor (gmul x0e a2) (gmul x0b a3)));
   bxor (gmul x0b a0) (bxor (gmul x0d a1) (bxor (gmul x09 a2) (gmul x0e a3)))].

Fixpoint mix_columns (s : pybytes) : pybytes :=
  match s with
  | a0 :: a1 :: a2 :: a3 :: rest => mix_column a0 a1 a2 a3 ++ mix_columns rest
  | _ => []
  end.

Fixpoint inv_mix_columns (s : pybytes) : pybytes :=
  match s with
  | a0 :: a1 :: a2 :: a3 :: rest =>
    inv_mix_column a0 a1 a2 a3 ++ inv_mix_columns rest
  | _ => []
  end.

Fixpoint xor_bytes (s k : pybytes) : pybytes :=
  match s, k with
  | a :: s', b :: k' => bxor a b :: xor_bytes s' k'
  | _, _ => []
  end.

Definition add_round_key (s k : pybytes) : pybytes := xor_bytes s k.

(** Key expansion: the next round key from the previous one. *)
Definition next_round_key (rcon : byte) (k : pybytes) : pybytes :=
  let w0 := firstn 4 k in
  let w1 := firstn 4 (skipn 4 k) in
  let w2 := firstn 4 (skipn 8 k) in
  let w3 := skipn 12 k in
  let t := xor_bytes (map sbox (pick w3 [1; 2; 3; 0]%nat)) [rcon; x00; x00; x00] in
  let v0 := xor_bytes w0 t in
  let v1 := xor_bytes w1 v0 in
  let v2 := xor_bytes w2 v1 in
  let v3 := xor_bytes w3 v2 in
  v0 ++ v1 ++ v2 ++ v3.

Fixpoint expand (rounds : nat) (rcon : byte) (k : pybytes) : list pybytes :=
  match rounds with
  | O => []
  | S n => let k' := next_round_key rcon k in k' :: expand n (xtime rcon) k'
  end.

(** The 10 round keys that follow the cipher key itself. *)
Definition key_schedule (key : pybytes) : list pybytes := expand 10 x01 key.

Definition round (s k : pybytes) : pybytes :=
  add_round_key (mix_columns (shift_rows (sub_bytes s))) k.

Definition final_round (s k : pybytes) : pybytes :=
  add_round_key (shift_rows (sub_bytes s)) k.

Definition inv_round (s k : pybytes) : pybytes :=
  inv_mix_columns (add_round_key (inv_sub_bytes (inv_shift_rows s)) k).

Definition inv_final_round (s k : pybytes) : pybytes :=
  add_round_key (inv_sub_bytes (inv_shift_rows s)) k.

(** Cipher with round keys [k0], [mid] (rounds 1 to 9) and [klast]. *)
Definition cipher (k0 : pybytes) (mid : list pybytes) (klast : pybytes)
    (block : pybytes) : pybytes :=
  final_round (fold_left round mid (add_round_key block k0)) klast.

Definition inv_cipher (k0 : pybytes) (mid : list pybytes) (klast : pybytes)
    (block : pybytes) : pybytes :=
  inv_final_round (fold_left inv_round (rev mid) (add_round_key block klast)) k0.

Definition encrypt_block (key block : pybytes) : pybytes :=
  let ks := key_schedule key in
  cipher key (firstn 9 ks) (nth 9 ks []) block.

Definition decrypt_block (key block : pybytes) : pybytes :=
  let ks := key_schedule key in
  inv_cipher key (firstn 9 ks) (nth 9 ks []) block.

(** ECB: every 16-byte block on its own. *)
Fixpoint ecb (fuel : nat) (f : pybytes -> pybytes) (data : pybytes) : pybytes :=
  match fuel, data with
  | S fuel', _ :: _ => f (firstn 16 data) ++ ecb fuel' f (skipn 16 data)
  | _, _ => []
  end.

(** [AES.new(key, AES.MODE_ECB).encrypt(data)] and [.decrypt(data)]:
    [None] is the [ValueError] for data that is not block-aligned. *)
Definition ecb_encrypt (key data : pybytes) : option pybytes :=
  if (length data mod 16 =? 0)%nat
  then Some (ecb (length data) (encrypt_block key) data)
  else None.

Definition ecb_decrypt (key data : pybytes) : option pybytes :=
  if (length data mod 16 =? 0)%nat
  then Some (ecb (length data) (decrypt_block key) data)
  else None.

End Aes.

(** *** [Crypto.Util.Padding] and [bytes.rstrip] *)

Module Padding.

Definition block_size : nat := 16.

(** [pad(data, 16)], PKCS#7. *)
Definition pad (data : pybytes) : pybytes :=
  let n := (block_size - length data mod block_size)%nat in
  data ++ repeat (byte_of_N (N.of_nat n)) n.

(** [unpad(padded, 16)], PKCS#7; [None] is its [ValueError]. *)
Definition unpad (padded : pybytes) : option pybytes :=
  let len := length padded in
  if (len =? 0)%nat then None
  else if negb (len mod block_size =? 0)%nat then None
  else
    let n := Byte.to_nat (List.last padded x00) in
    if (n <? 1)%nat || (Nat.min block_size len <? n)%nat then None
    else if negb (bool_decide (skipn (len - n) padded = repeat (List.last padded x00) n))
    then None
    else Some (firstn (len - n) padded).

Fixpoint lstrip_byte (c : byte) (s : pybytes) : pybytes :=
  match s with
  | b :: t => if Byte.eqb b c then lstrip_byte c t else s
  | [] => []
  end.

(** [s.rstrip(bytes([c]))]. *)
Definition rstrip_byte (c : byte) (s : pybytes) : pybytes :=
  rev (lstrip_byte c (rev s)).

End Padding.

(** ** Python exceptions and floats *)

Inductive exn : Type :=
  | ZeroDivisionError
  | IndexError
  | OtherError.

(** What evaluating an expression gives: a value or a raised exception. *)
Inductive outcome (A : Type) : Type :=
  | Return (a : A)
  | Raise (e : exn).
Arguments Return {A} a.
Arguments Raise {A} e.

Definition bind {A B : Type} (m : outcome A) (k : A -> outcome B) : outcome B :=
  match m with
  | Return a => k a
  | Raise e => Raise e
  end.

Notation "'do' x <- m ; k" := (bind m (fun x => k))
  (at level 10, x name, m at level 100, k at level 200).

(** [try: m except: h]. *)
Definition try_except {A : Type} (m : outcome A) (h : A) : A :=
  match m with
  | Return a => a
  | Raise _ => h
  end.

#[local] Set Warnings "-inexact-float".

(** [float(n)] for an [int] in the range of [len], 0 <= n < 2^63;
    outside that range the value wraps and is not the conversion. *)
Definition float_of_int (n : Z) : float := PrimFloat.of_uint63 (Uint63.of_Z n).

(** [a / b] on floats: Python raises where IEEE 754 would give an
    infinity or a NaN. *)
Definition truediv (a b : float) : outcome float :=
  if (b =? 0)%float then Raise ZeroDivisionError else Return (a / b)%float.

(** [a[i]] on a one-dimensional array, negative indices counting from
    the end. *)
Definition np_index {A : Type} (a : list A) (i : Z) : outcome A :=
  let n := Z.of_nat (length a) in
  let j := (if i <? 0 then i + n else i)%Z in
  if ((0 <=? j) && (j <? n))%Z
  then match nth_error a (Z.to_nat j) with
       | Some x => Return x
       | None => Raise IndexError
       end
  else Raise IndexError.

(** ** The gateway: configuration and state *)

Definition AES_KEY : pybytes :=
  [x2b; x7e; x15; x16; x28; xae; xd2; xa6;
   xab; xf7; x15; x88; x09; xcf; x4f; x3c].

Definition DETECTION_THRESHOLD : float := 0.5%float.
Definition ENABLE_AUTO_BLOCK : bool := true.
Definition ENABLE_CHECKSUM_VERIFICATION : bool := true.

(** The code point of the checksum delimiter, '|'. *)
Definition BAR : N := 124.

(** The loaded classifier: scikit-learn's [predict] and [predict_proba]
    on a batch of feature rows. Class labels are integers, 1 for attack. *)
Record classifier : Type := {
  predict : list (list float) -> outcome (list Z);
  predict_proba : list (list float) -> outcome (list (list float))
}.

(** The globals [ml_model] and [scaler], set once by [main]. *)
Record detector : Type := {
  ml_model : option classifier;
  scaler : option (list (list float) -> outcome (list (list float)))
}.

(** One line of [ATTACK_LOG_FILE], by its fields; [log_source_ip] is
    [None] where the line reads [IP: None]. *)
Record log_entry : Type := {
  log_timestamp : pystr;
  log_topic : pystr;
  log_length : Z;
  log_source_ip : option pystr;
  log_confidence : float
}.

(** The commands handed to [subprocess.run]. *)
Inductive fw_command : Type :=
  | Deny (ip : pystr)    (* sudo iptables -A INPUT -s ip -j DROP *)
  | Allow (ip : pystr).  (* sudo iptables -D INPUT -s ip -j DROP *)

(** The module's mutable globals ([packet_stats] by its four keys), the
    attack log file and the commands run so far. *)
Record ids_state : Type := {
  last_packet_time : gmap pystr float;
  blocked_ips : gset pystr;
  total_packets : Z;
  attacks_detected : Z;
  ips_blocked : Z;
  checksum_failures : Z;
  attack_log : list log_entry;
  commands_run : list fw_command
}.

Definition initial_state : ids_state := {|
  last_packet_time := ∅;
  blocked_ips := ∅;
  total_packets := 0;
  attacks_detected := 0;
  ips_blocked := 0;
  checksum_failures := 0;
  attack_log := [];
  commands_run := []
|}.

Definition set_last_packet_time (f : gmap pystr float -> gmap pystr float)
    (st : ids_state) : ids_state :=
  {| last_packet_time := f (last_packet_time st);
     blocked_ips := blocked_ips st;
     total_packets := total_packets st;
     attacks_detected := attacks_detected st;
     ips_blocked := ips_blocked st;
     checksum_failures := checksum_failures st;
     attack_log := attack_log st;
     commands_run := commands_run st |}.

Definition set_blocked_ips (f : gset pystr -> gset pystr)
    (st : ids_state) : ids_state :=
  {| last_packet_time := last_packet_time st;
     blocked_ips := f (blocked_ips st);
     total_packets := total_packets st;
     attacks_detected := attacks_detected st;
     ips_blocked := ips_blocked st;
     checksum_failures := checksum_failures st;
     attack_log := attack_log st;
     commands_run := commands_run st |}.

Definition incr_total_packets (st : ids_state) : ids_state :=
  {| last_packet_time := last_packet_time st;
     blocked_ips := blocked_ips st;
     total_packets := total_packets st + 1;
     attacks_detected := attacks_detected st;
     ips_blocked := ips_blocked st;
     checksum_failures := checksum_failures st;
     attack_log := attack_log st;
     commands_run := commands_run st |}.

Definition incr_attacks_detected (st : ids_state) : ids_state :=
  {| last_packet_time := last_packet_time st;
     blocked_ips := blocked_ips st;
     total_packets := total_packets st;
     attacks_detected := attacks_detected st + 1;
     ips_blocked := ips_blocked st;
     checksum_failures := checksum_failures st;
     attack_log := attack_log st;
     commands_run := commands_run st |}.

Definition incr_ips_blocked (st : ids_state) : ids_state :=
  {| last_packet_time := last_packet_time st;
     blocked_ips := blocked_ips st;
     total_packets := total_packets st;
     attacks_detected := attacks_detected st;
     ips_blocked := ips_blocked st + 1;
     checksum_failures := checksum_failures st;
     attack_log := attack_log st;
     commands_run := commands_run st |}.

Definition incr_checksum_failures (st : ids_state) : ids_state :=
  {| last_packet_time := last_packet_time st;
     blocked_ips := blocked_ips st;
     total_packets := total_packets st;
     attacks_detected := attacks_detected st;
     ips_blocked := ips_blocked st;
     checksum_failures := checksum_failures st + 1;
     attack_log := attack_log st;
     commands_run := commands_run st |}.

Definition append_attack_log (e : log_entry) (st : ids_state) : ids_state :=
  {| last_packet_time := last_packet_time st;
     blocked_ips := blocked_ips st;
     total_packets := total_packets st;
     attacks_detected := attacks_detected st;
     ips_blocked := ips_blocked st;
     checksum_failures := checksum_failures st;
     attack_log := attack_log st ++ [e];
     commands_run := commands_run st |}.

Definition record_command (c : fw_command) (st : ids_state) : ids_state :=
  {| last_packet_time := last_packet_time st;
     blocked_ips := blocked_ips st;
     total_packets := total_packets st;
     attacks_detected := attacks_detected st;
     ips_blocked := ips_blocked st;
     checksum_failures := checksum_failures st;
     attack_log := attack_log st;
     commands_run := commands_run st ++ [c] |}.

(** A received MQTT message: [msg.topic] and [msg.payload]. *)
Record message : Type := {
  msg_topic : pystr;
  msg_payload : pybytes
}.

(** What the environment answers while one message is handled:
    [time.time()], [datetime.now()] as formatted, the result of
    [subprocess.run] should a command be run, and whether appending to
    the log file succeeds. *)
Record env : Type := {
  env_time : float;
  env_now : pystr;
  env_run : outcome Z;
  env_log_ok : bool
}.

(** ** The gateway: functions *)

(** [calculate_crc32(data)], for a [str] (encoded first) or [bytes]. *)
Definition calculate_crc32 (data : pystr + pybytes) : option pystr :=
  bs ← match data with
       | inl s => Utf8.encode s
       | inr b => Some b
       end;
  Some (Str.format_08X (N.land (Zlib.crc32 bs) 0xFFFFFFFF)).

(** [decrypt_aes(ciphertext)]; [None] is the [None] of its [except]. *)
Definition decrypt_aes (ciphertext : pybytes) : option pystr :=
  decrypted ← Aes.ecb_decrypt AES_KEY ciphertext;
  let unpadded :=
    match Padding.unpad decrypted with
    | Some u => u
    | None => Padding.rstrip_byte x00 decrypted
    end in
  Utf8.decode unpadded.

(** The [try] block of [verify_checksum]; [None] is a raised exception. *)
Definition verify_checksum_try (data_with_checksum : pystr)
    : option (pystr * option bool) :=
  if negb (Str.contains BAR data_with_checksum)
  then Some (data_with_checksum, None)
  else
    let parts := Str.rsplit1 BAR data_with_checksum in
    data ← parts !! 0%nat;
    part1 ← parts !! 1%nat;
    let received_checksum := Str.strip part1 in
    calculated_checksum ← calculate_crc32 (inl data);
    let is_valid := bool_decide (received_checksum = calculated_checksum) in
    Some (data, Some is_valid).

(** [verify_checksum(data_with_checksum)]: the data and [None], [True]
    or [False]. *)
Definition verify_checksum (data_with_checksum : pystr)
    : pystr * option bool :=
  default (data_with_checksum, Some false)
          (verify_checksum_try data_with_checksum).

(** Lines 172 to 182 of [on_message]: the decrypted text, when there is
    one, and [checksum_valid]. *)
Definition crypto_verify (payload : pybytes) : option pystr * option bool :=
  if ENABLE_CHECKSUM_VERIFICATION then
    match decrypt_aes payload with
    | Some ((_ :: _) as decrypted_data) =>
      let '(data, checksum_valid) := verify_checksum decrypted_data in
      (Some data, checksum_valid)
    | _ => (None, None)
    end
  else (None, None).

(** Lines 184 to 190 of [on_message]: the time since the topic was last
    seen, and the update of [last_packet_time]. *)
Definition flow_delta (topic : pystr) (timestamp : float) (st : ids_state)
    : float * ids_state :=
  let time_delta :=
    match last_packet_time st !! topic with
    | Some last => (timestamp - last)%float
    | None => 0%float
    end in
  (time_delta, set_last_packet_time <[topic := timestamp]> st).

(** [d[key]] on a [dict]. *)
Definition getitem (d : gmap string float) (key : string) : outcome float :=
  match d !! key with
  | Some v => Return v
  | None => Raise OtherError
  end.

(** [extract_features(topic, payload_length, time_delta)]: the array
    after [reshape(1, -1)], one row of five columns. *)
Definition extract_features (topic : pystr) (payload_length : Z)
    (time_delta : float) : outcome (list (list float)) :=
  do packets_per_sec <- truediv 1%float (time_delta + 0.001)%float;
  let features : gmap string float :=
    <["avg_payload_size" := float_of_int payload_length]>
    (<["packets_per_sec" := packets_per_sec]>
    (<["topic_length" := float_of_int (Z.of_nat (length topic))]>
    (<["time_delta" := time_delta]>
    (<["packet_length" := float_of_int payload_length]> ∅)))) in
  do f1 <- getitem features "packet_length";
  do f2 <- getitem features "time_delta";
  do f3 <- getitem features "topic_length";
  do f4 <- getitem features "packets_per_sec";
  do f5 <- getitem features "avg_payload_size";
  Return [[f1; f2; f3; f4; f5]].

(** Lines 283 and 284: the features after [scaler.transform], when a
    scaler is loaded. *)
Definition scale_features
    (sc : option (list (list float) -> outcome (list (list float))))
    (features : list (list float)) : outcome (list (list float)) :=
  match sc with
  | Some transform => transform features
  | None => Return features
  end.

(** Lines 290 to 294: the probability of the predicted class, or 1.0 or
    0.0 when [predict_proba] or the indexing raises. *)
Definition confidence_of (m : classifier) (features : list (list float))
    (prediction : Z) : float :=
  try_except
    (do probs <- predict_proba m features;
     do probabilities <- np_index probs 0;
     np_index probabilities prediction)
    (if (prediction =? 1)%Z then 1%float else 0%float).

(** The [try] block of [detect_intrusion], the model being loaded. *)
Definition detect_intrusion_try (m : classifier)
    (sc : option (list (list float) -> outcome (list (list float))))
    (features : list (list float)) : outcome (bool * float) :=
  do features <- scale_features sc features;
  do predictions <- predict m features;
  do prediction <- np_index predictions 0;
  let confidence := confidence_of m features prediction in
  let is_attack :=
    (prediction =? 1)%Z && (DETECTION_THRESHOLD <=? confidence)%float in
  Return (is_attack, confidence).

(** [detect_intrusion(features)]. *)
Definition detect_intrusion (d : detector) (features : list (list float))
    : bool * float :=
  match ml_model d with
  | None => (false, 0%float)
  | Some m =>
    try_except (detect_intrusion_try m (scaler d) features) (false, 0%float)
  end.

(** [block_ip(ip_address)]; [run] is what [subprocess.run] answers:
    the exit code, or an exception. *)
Definition block_ip (run : outcome Z) (ip_address : pystr) (st : ids_state)
    : ids_state :=
  if bool_decide (ip_address ∈ blocked_ips st) then st
  else
    let st := record_command (Deny ip_address) st in
    match run with
    | Return returncode =>
      if (returncode =? 0)%Z
      then incr_ips_blocked (set_blocked_ips (union {[ ip_address ]}) st)
      else st
    | Raise _ => st
    end.

(** [unblock_ip(ip_address)]. *)
Definition unblock_ip (run : outcome Z) (ip_address : pystr) (st : ids_state)
    : ids_state :=
  let st := record_command (Allow ip_address) st in
  match run with
  | Return returncode =>
    if (returncode =? 0)%Z
    then set_blocked_ips (fun s => s ∖ {[ ip_address ]}) st
    else st
  | Raise _ => st
  end.

(** [extract_source_ip(msg)]. *)
Definition extract_source_ip (msg : message) : option pystr := None.

(** [log_attack(...)]: one more line, unless the file cannot be written. *)
Definition log_attack (writable : bool) (timestamp topic : pystr)
    (payload_length : Z) (source_ip : option pystr) (confidence : float)
    (st : ids_state) : ids_state :=
  if writable
  then append_attack_log {| log_timestamp := timestamp;
                            log_topic := topic;
                            log_length := payload_length;
                            log_source_ip := source_ip;
                            log_confidence := confidence |} st
  else st.

(** Whether [if source_ip and ENABLE_AUTO_BLOCK] holds. *)
Definition should_block (source_ip : option pystr) : bool :=
  match source_ip with
  | Some (_ :: _) => ENABLE_AUTO_BLOCK
  | _ => false
  end.

(** [on_message(client, userdata, msg)]. An exception raised by
    [extract_features] ends the handler in its [except] clause, with the
    updates made before it kept. *)
Definition on_message (d : detector) (e : env) (msg : message)
    (st : ids_state) : ids_state :=
  let timestamp := env_time e in
  let topic := msg_topic msg in
  let payload := msg_payload msg in
  let payload_length := Z.of_nat (length payload) in
  let checksum_valid := snd (crypto_verify payload) in
  let st := if bool_decide (checksum_valid = Some false)
            then incr_checksum_failures st else st in
  let '(time_delta, st) := flow_delta topic timestamp st in
  match extract_features topic payload_length time_delta with
  | Raise _ => st
  | Return features =>
    let '(is_attack, confidence) := detect_intrusion d features in
    let st := incr_total_packets st in
    let timestamp_str := env_now e in
    if is_attack then
      let st := incr_attacks_detected st in
      let source_ip := extract_source_ip msg in
      let st := if should_block source_ip
                then block_ip (env_run e) (default [] source_ip) st
                else st in
      log_attack (env_log_ok e) timestamp_str topic payload_length
                 source_ip confidence st
    else st
  end.

(** The ingest loop: the messages delivered so far, oldest first. *)
Definition ingest (d : detector) (events : list (env * message))
    (st : ids_state) : ids_state :=
  fold_left (fun st em => on_message d (fst em) (snd em) st) events st.

(** What can happen to the module state: a message is handled, or one
    of the firewall functions is called. *)
Inductive action : Type :=
  | Message (e : env) (msg : message)
  | Block (run : outcome Z) (ip : pystr)
  | Unblock (run : outcome Z) (ip : pystr).

Definition step (d : detector) (st : ids_state) (a : action) : ids_state :=
  match a with
  | Message e msg => on_message d e msg st
  | Block run ip => block_ip run ip st
  | Unblock run ip => unblock_ip run ip st
  end.

(** The states reachable from the initial one. *)
Definition reachable (d : detector) (st : ids_state) : Prop :=
  exists actions, st = fold_left (step d) actions initial_state.

(** ** The sending device *)

(** Modelled from the spec: the sixteen uppercase hexadecimal digits,
    0 to 9 and A to F. *)
Definition HEX_DIGITS : pystr :=
  [48; 49; 50; 51; 52; 53; 54; 55; 56; 57; 65; 66; 67; 68; 69; 70].

(** Modelled from the spec: a value rendered as [width] uppercase
    hexadecimal digits, the most significant first. *)
Fixpoint hex_fixed (width : nat) (n : N) : pystr :=
  match width with
  | O => []
  | S w => hex_fixed w (n / 16) ++ [nth (N.to_nat (n mod 16)) HEX_DIGITS 48]
  end.

(** Modelled from the spec: the checksum the sending device appends
    (its firmware is not among the Python sources), the CRC-32 of the
    bytes of the data rendered as 8 uppercase hexadecimal digits. It
    does not go through [calculate_crc32]. *)
Definition sender_checksum (data : pystr) : option pystr :=
  bs ← Utf8.encode data;
  Some (hex_fixed 8 (Zlib.crc32 bs)).

(** Modelled from the spec: the plaintext the sending device builds, of
    the form data|CHECKSUM. *)
Definition sender_plaintext (data : pystr) : option pybytes :=
  checksum ← sender_checksum data;
  Utf8.encode (data ++ BAR :: checksum).

(** Modelled from the spec: the two ways the device may pad, the
    library's block padding or [k] zero bytes. *)
Inductive padding_scheme : Type :=
  | Pkcs7
  | ZeroPad (k : nat).

(** Modelled from the spec: the padded plaintext. *)
Definition apply_padding (scheme : padding_scheme) (plaintext : pybytes)
    : pybytes :=
  match scheme with
  | Pkcs7 => Padding.pad plaintext
  | ZeroPad k => plaintext ++ repeat x00 k
  end.

(** Modelled from the spec: the ciphertext of [data] under the
    pre-shared key in ECB mode, when there is one (the data can be
    encoded and the padded plaintext fills whole blocks). *)
Definition sender_encrypt (scheme : padding_scheme) (data : pystr)
    : option pybytes :=
  plaintext ← sender_plaintext data;
  Aes.ecb_encrypt AES_KEY (apply_padding scheme plaintext).

(** The features [on_message] extracts for [msg] when it arrives in
    state [st], or the exception raised instead. *)
Definition features_of (e : env) (msg : message) (st : ids_state)
    : outcome (list (list float)) :=
  extract_features (msg_topic msg) (Z.of_nat (length (msg_payload msg)))
    (fst (flow_delta (msg_topic msg) (env_time e) st)).

(** Two calls of [block_ip] on the same address, one after the other. *)
Definition block_twice (run1 run2 : outcome Z) (ip : pystr) (st : ids_state)
    : ids_state :=
  block_ip run2 ip (block_ip run1 ip st).

(** Exactly-once blocking over two calls: the address is in the set, the
    counter went up by one, and one deny command was run. *)
Definition blocked_exactly_once (run1 run2 : outcome Z) (ip : pystr)
    (st : ids_state) : Prop :=
  let st2 := block_twice run1 run2 ip st in
  ip ∈ blocked_ips st2
  /\ ips_blocked st2 = (ips_blocked st + 1)%Z
  /\ commands_run st2 = commands_run st ++ [Deny ip].

(** After [unblock_ip] the blocked set is strictly smaller than the
    blocked counter. *)
Definition strict_after_unblock (run : outcome Z) (ip : pystr)
    (st : ids_state) : Prop :=
  let st' := unblock_ip run ip st in
  (Z.of_nat (size (blocked_ips st')) < ips_blocked st')%Z.

(** The loaded classifier answers [label] with probability
    [confidence] on [features]: on the scaled features [predict] gives
    [label] first, and the first row of [predict_proba] holds
    [confidence] at index [label]. *)
Definition classifies (d : detector) (features : list (list float))
    (label : Z) (confidence : float) : Prop :=
  exists m scaled predictions probs probabilities,
    ml_model d = Some m
    /\ scale_features (scaler d) features = Return scaled
    /\ predict m scaled = Return predictions
    /\ np_index predictions 0%Z = Return label
    /\ predict_proba m scaled = Return probs
    /\ np_index probs 0%Z = Return probabilities
    /\ np_index probabilities label = Return confidence.

(** A classifier that answers [label] with probability [p] for it (and
    for every other class). *)
Definition constant_classifier (label : Z) (p : float) : classifier :=
  {| predict := fun _ => Return [label];
     predict_proba := fun _ => Return [[p; p]] |}.

(** Sample values: a detector with no model, an environment answer at
    time [t], the address 10.0.0.5 and the topic x. *)
Definition no_detector : detector := {| ml_model := None; scaler := None |}.

Definition env_at (t : float) : env :=
  {| env_time := t; env_now := []; env_run := Return 0%Z; env_log_ok := true |}.

Definition sample_ip : pystr := [49; 48; 46; 48; 46; 48; 46; 53].

Definition sample_topic : pystr := [120].

(** ** Start-up and run summaries *)

(** What [joblib.load(MODEL_PATH)] gives: a [dict], of which [main]
    reads the entries "model" and "scaler" with [dict.get] ([None] for
    an entry that is missing), or the model itself. *)
Inductive model_data : Type :=
  | ModelDict (model : option classifier)
              (scaler : option (list (list float) -> outcome (list (list float))))
  | BareModel (model : classifier).

(** Lines 411 to 431 of [main]: the globals [ml_model] and [scaler]
    after loading; [loaded] is what [joblib.load] answers, a value or
    an exception ([FileNotFoundError] or another one). *)
Definition load_model (loaded : outcome model_data) : detector :=
  match loaded with
  | Return (ModelDict m sc) => {| ml_model := m; scaler := sc |}
  | Return (BareModel m) => {| ml_model := Some m; scaler := None |}
  | Raise _ => {| ml_model := None; scaler := None |}
  end.

(** The topics of the messages of a run, and the messages whose
    checksum fails. *)
Definition topics_of (events : list (env * message)) : list pystr :=
  map (fun em => msg_topic (snd em)) events.

Definition checksum_fails (em : env * message) : bool :=
  bool_decide (snd (crypto_verify (msg_payload (snd em))) = Some false).

(** The deny commands among the commands run. *)
Definition is_deny (c : fw_command) : bool :=
  match c with
  | Deny _ => true
  | Allow _ => false
  end.

(** ** Views used in the proofs *)

(** A byte as its eight bits, least significant first, with the two
    field operations of [Aes] on that view. *)
Definition bits8 : Type :=
  bool * (bool * (bool * (bool * (bool * (bool * (bool * bool)))))).

Definition xor8 (a b : bits8) : bits8 :=
  let '(a0, (a1, (a2, (a3, (a4, (a5, (a6, a7))))))) := a in
  let '(b0, (b1, (b2, (b3, (b4, (b5, (b6, b7))))))) := b in
  (xorb a0 b0, (xorb a1 b1, (xorb a2 b2, (xorb a3 b3,
               (xorb a4 b4, (xorb a5 b5, (xorb a6 b6, xorb a7 b7))))))).

Definition xtime8 (a : bits8) : bits8 :=
  let '(a0, (a1, (a2, (a3, (a4, (a5, (a6, a7))))))) := a in
  (a7, (xorb a0 a7, (a1, (xorb a2 a7, (xorb a3 a7, (a4, (a5, a6))))))).

(** The characters 0-9 and A-F. *)
Definition is_hex_char (c : N) : Prop := 48 <= c <= 57 \/ 65 <= c <= 70.

(** A Unicode scalar value: a code point that is no surrogate. *)
Definition is_scalar (c : N) : Prop :=
  c < 0x110000 /\ Utf8.is_surrogate c = false.

(** Finite floats, on the side of their specification. *)
Definition SF_is_finite (x : spec_float) : bool :=
  match x with
  | S754_zero _ | S754_finite _ _ _ => true
  | S754_infinity _ | S754_nan => false
  end.

(** The text T=21.5 and what the sending device makes of it. *)
Definition sample_data : pystr := [84; 61; 50; 49; 46; 53].

Definition sample_ciphertext : pybytes :=
  Eval vm_compute in default [] (sender_encrypt Pkcs7 sample_data).

(** ** Proof automation *)

(** The branches of [on_message]. *)
Ltac on_message_cases :=
  unfold on_message, flow_delta, log_attack;
  cbn [should_block extract_source_ip];
  repeat match goal with
  | |- context [bool_decide ?P] => destruct (bool_decide P)
  | |- context [extract_features ?a ?b ?c] =>
      destruct (extract_features a b c)
  | |- context [detect_intrusion ?d ?f] =>
      destruct (detect_intrusion d f) as [[|] ?]
  | |- context [env_log_ok ?e] => destruct (env_log_ok e)
  end;
  cbn.

(** Comparisons on [N] in the hypotheses, as propositions. *)
Ltac bool_hyps :=
  unfold Utf8.is_surrogate, Utf8.second_of_3, Utf8.second_of_4,
    Utf8.is_cont, Utf8.in_range in *;
  repeat match goal with
  | H : context [if ?b then _ else _] |- _ => destruct b eqn:?
  end;
  repeat match goal with
  | H : (_ && _) = true |- _ => apply andb_true_iff in H; destruct H
  | H : (_ && _) = false |- _ => apply andb_false_iff in H; destruct H
  | H : (_ <? _) = true |- _ => apply N.ltb_lt in H
  | H : (_ <? _) = false |- _ => apply N.ltb_ge in H
  | H : (_ <=? _) = true |- _ => apply N.leb_le in H
  | H : (_ <=? _) = false |- _ => apply N.leb_gt in H
  | H : (_ =? _) = true |- _ => apply N.eqb_eq in H
  | H : (_ =? _) = false |- _ => apply N.eqb_neq in H
  end.

(** A list of known length, spelled out element by element. *)
Ltac block_elements H :=
  repeat match type of H with
  | length ?s = _ =>
      is_var s;
      let a := fresh "a" in let s' := fresh "s" in
      destruct s as [|a s']; cbn [length] in H;
      [discriminate H | apply Nat.succ_inj in H]
  end;
  match type of H with
  | length ?s = 0%nat => destruct s; [clear H | discriminate H]
  end.

(** * Properties *)

(** ** Bytes, UTF-8 and the string methods *)

Lemma div_facts c :
  c = 64 * (c / 64) + c mod 64 /\ c mod 64 < 64
  /\ c / 64 = 64 * (c / 4096) + (c / 64) mod 64 /\ (c / 64) mod 64 < 64
  /\ c / 4096 = 64 * (c / 262144) + (c / 4096) mod 64 /\ (c / 4096) mod 64 < 64
  /\ 0 <= c mod 64 /\ 0 <= (c / 64) mod 64 /\ 0 <= (c / 4096) mod 64
  /\ 0 <= c / 64 /\ 0 <= c / 4096 /\ 0 <= c / 262144.
Proof.
  repeat split; try apply N.le_0_l;
    try (apply N.mod_upper_bound; discriminate).
  - apply N.div_mod'.
  - replace (c / 4096) with (c / 64 / 64) by (rewrite N.Div0.div_div; reflexivity).
    apply N.div_mod'.
  - replace (c / 262144) with (c / 4096 / 64) by (rewrite N.Div0.div_div; reflexivity).
    apply N.div_mod'.
Qed.

Lemma to_N_byte_of_N n : n < 256 -> Byte.to_N (byte_of_N n) = n.
Proof.
  intros Hn. unfold byte_of_N.
  destruct (Byte.of_N n) as [b|] eqn:Hb.
  - apply Byte.to_of_N. exact Hb.
  - apply Byte.of_N_None_iff in Hb. lia.
Qed.

Lemma decode_cons b0 r0 :
  Utf8.decode (b0 :: r0)
  = let n0 := Byte.to_N b0 in
    if n0 <? 0x80 then cons n0 <$> Utf8.decode r0
    else if Utf8.in_range 0xC2 0xDF n0 then
      match r0 with
      | b1 :: r1 =>
        let n1 := Byte.to_N b1 in
        if Utf8.is_cont n1
        then cons ((n0 - 0xC0) * 64 + (n1 - 0x80)) <$> Utf8.decode r1
        else None
      | _ => None
      end
    else if Utf8.in_range 0xE0 0xEF n0 then
      match r0 with
      | b1 :: b2 :: r2 =>
        let n1 := Byte.to_N b1 in
        let n2 := Byte.to_N b2 in
        if Utf8.second_of_3 n0 n1 && Utf8.is_cont n2
        then cons ((n0 - 0xE0) * 4096 + (n1 - 0x80) * 64 + (n2 - 0x80))
               <$> Utf8.decode r2
        else None
      | _ => None
      end
    else if Utf8.in_range 0xF0 0xF4 n0 then
      match r0 with
      | b1 :: b2 :: b3 :: r3 =>
        let n1 := Byte.to_N b1 in
        let n2 := Byte.to_N b2 in
        let n3 := Byte.to_N b3 in
        if Utf8.second_of_4 n0 n1 && Utf8.is_cont n2 && Utf8.is_cont n3
        then cons ((n0 - 0xF0) * 262144 + (n1 - 0x80) * 4096
                   + (n2 - 0x80) * 64 + (n3 - 0x80))
               <$> Utf8.decode r3
        else None
      | _ => None
      end
    else None.
Proof. reflexivity. Qed.

Lemma decode_encode_char c cb rest :
  Utf8.encode_char c = Some cb ->
  Utf8.decode (cb ++ rest) = cons c <$> Utf8.decode rest.
Proof.
  unfold Utf8.encode_char. pose proof (div_facts c) as Hc.
  destruct (c <? 0x80) eqn:H1;
    [|destruct (c <? 0x800) eqn:H2;
      [|destruct (c <? 0x10000) eqn:H3;
        [destruct (Utf8.is_surrogate c) eqn:Hs|
         destruct (c <? 0x110000) eqn:H4]]];
    intros Hcb; inversion Hcb; subst cb; clear Hcb;
    cbn [app]; rewrite decode_cons; cbv beta iota zeta;
    bool_hyps;
    rewrite !to_N_byte_of_N by lia;
    repeat match goal with
    | |- context [if ?b then _ else _] => destruct b eqn:?
    end;
    bool_hyps; try lia; try (f_equal; f_equal; lia).
Qed.

Lemma decode_encode s bs :
  Utf8.encode s = Some bs -> Utf8.decode bs = Some s.
Proof.
  revert bs. induction s as [|c t IH]; intros bs; cbn [Utf8.encode].
  - intros [= <-]. reflexivity.
  - destruct (Utf8.encode_char c) as [cb|] eqn:Hc; [|discriminate].
    destruct (Utf8.encode t) as [r|]; [|discriminate].
    intros [= <-]. rewrite (decode_encode_char c cb r Hc), (IH r eq_refl).
    reflexivity.
Qed.

Lemma encode_app s1 s2 b1 b2 :
  Utf8.encode s1 = Some b1 -> Utf8.encode s2 = Some b2 ->
  Utf8.encode (s1 ++ s2) = Some (b1 ++ b2).
Proof.
  revert b1. induction s1 as [|c t IH]; intros b1; cbn [Utf8.encode app].
  - intros [= <-] H2. exact H2.
  - destruct (Utf8.encode_char c) as [cb|]; [|discriminate].
    destruct (Utf8.encode t) as [r|]; [|discriminate].
    intros [= <-] H2. rewrite (IH r eq_refl H2), app_assoc. reflexivity.
Qed.

Lemma encode_ascii s :
  Forall (fun c => c < 0x80) s -> Utf8.encode s = Some (map byte_of_N s).
Proof.
  induction 1 as [|c t Hc _ IH]; cbn [Utf8.encode map]; [reflexivity|].
  unfold Utf8.encode_char. apply N.ltb_lt in Hc. rewrite Hc, IH. reflexivity.
Qed.

Lemma hex_digit_is_hex d : d < 16 -> is_hex_char (Str.hex_digit d).
Proof.
  intros Hd. unfold is_hex_char, Str.hex_digit.
  destruct (d <? 10) eqn:H10; [apply N.ltb_lt in H10 | apply N.ltb_ge in H10];
    lia.
Qed.

Lemma hex_digits_are_hex fuel n acc :
  Forall is_hex_char acc -> Forall is_hex_char (Str.hex_digits fuel n acc).
Proof.
  revert n acc. induction fuel as [|fuel IH]; intros n acc Hacc;
    cbn [Str.hex_digits]; [exact Hacc|].
  assert (Forall is_hex_char (Str.hex_digit (n mod 16) :: acc)) as Hacc'.
  { constructor; [|exact Hacc]. apply hex_digit_is_hex.
    apply N.mod_upper_bound. discriminate. }
  destruct (n / 16 =? 0); [exact Hacc'|]. apply IH, Hacc'.
Qed.

Lemma hex_digits_length fuel n acc k :
  n < 16 ^ N.of_nat (S k) ->
  (length (Str.hex_digits fuel n acc) <= S k + length acc)%nat.
Proof.
  revert n acc k. induction fuel as [|fuel IH]; intros n acc k Hn;
    cbn [Str.hex_digits]; [lia|].
  destruct (n / 16 =? 0) eqn:Hq; [cbn [length]; lia|].
  apply N.eqb_neq in Hq.
  destruct k as [|k].
  - exfalso. apply Hq. apply N.div_small. exact Hn.
  - etransitivity; [apply (IH _ _ k)|cbn [length]; lia].
    apply N.Div0.div_lt_upper_bound.
    replace (16 * 16 ^ N.of_nat (S k)) with (16 ^ N.of_nat (S (S k))); [exact Hn|].
    rewrite (Nat2N.inj_succ (S k)), N.pow_succ_r'. reflexivity.
Qed.

Lemma format_08X_is_hex n : Forall is_hex_char (Str.format_08X n).
Proof.
  unfold Str.format_08X, Str.hex_upper. apply Forall_app. split.
  - apply List.Forall_forall. intros c Hc. apply repeat_spec in Hc. subst c.
    left. lia.
  - apply hex_digits_are_hex. constructor.
Qed.

Lemma format_08X_length_ge n : (8 <= length (Str.format_08X n))%nat.
Proof.
  unfold Str.format_08X. rewrite length_app, repeat_length. lia.
Qed.

Lemma format_08X_length n : n < 2 ^ 32 -> length (Str.format_08X n) = 8%nat.
Proof.
  intros Hn. unfold Str.format_08X. rewrite length_app, repeat_length.
  pose proof (hex_digits_length (S (N.to_nat (N.log2 n))) n [] 7 Hn) as Hlen.
  fold (Str.hex_upper n) in Hlen. cbn [length] in Hlen. lia.
Qed.

Lemma land_mask_bound n : N.land n 0xFFFFFFFF < 2 ^ 32.
Proof.
  change 0xFFFFFFFF with (N.ones 32). rewrite N.land_ones.
  apply N.mod_upper_bound. discriminate.
Qed.

Lemma is_hex_not_space c : is_hex_char c -> Str.isspace c = false.
Proof.
  unfold is_hex_char, Str.isspace, Utf8.in_range. intros Hc.
  repeat (apply orb_false_intro);
    rewrite ?andb_false_iff, ?N.leb_gt, ?N.eqb_neq; lia.
Qed.

Lemma lstrip_no_space s :
  Forall (fun c => Str.isspace c = false) s -> Str.lstrip s = s.
Proof. destruct 1 as [|c t Hc _]; cbn; [|rewrite Hc]; reflexivity. Qed.

Lemma strip_no_space s :
  Forall (fun c => Str.isspace c = false) s -> Str.strip s = s.
Proof.
  intros Hs. unfold Str.strip, Str.rstrip.
  rewrite (lstrip_no_space (rev s)) by (apply Forall_rev; exact Hs).
  rewrite rev_involutive. apply lstrip_no_space, Hs.
Qed.

Lemma cut_last_absent sep s :
  Forall (fun c => c <> sep) s -> Str.cut_last sep s = None.
Proof.
  induction 1 as [|c t Hc _ IH]; cbn [Str.cut_last]; [reflexivity|].
  rewrite IH. apply N.eqb_neq in Hc. rewrite Hc. reflexivity.
Qed.

Lemma cut_last_app sep s t :
  Forall (fun c => c <> sep) t ->
  Str.cut_last sep (s ++ sep :: t) = Some (s, t).
Proof.
  intros Ht. induction s as [|c s IH]; cbn [app Str.cut_last].
  - rewrite (cut_last_absent sep t Ht), N.eqb_refl. reflexivity.
  - rewrite IH. reflexivity.
Qed.

Lemma contains_app sep s t : Str.contains sep (s ++ sep :: t) = true.
Proof.
  unfold Str.contains. rewrite existsb_app. cbn [existsb].
  rewrite N.eqb_refl, orb_true_r. reflexivity.
Qed.

(** *** Padding *)

Lemma to_nat_byte_of_N n :
  (n < 256)%nat -> Byte.to_nat (byte_of_N (N.of_nat n)) = n.
Proof.
  intros Hn. rewrite <- (Nat2N.id (Byte.to_nat _)), <- Byte.to_N_via_nat.
  rewrite to_N_byte_of_N by lia. apply Nat2N.id.
Qed.

Lemma last_app_repeat {A : Type} (s : list A) (x d : A) n :
  List.last (s ++ repeat x (S n)) d = x.
Proof.
  replace (repeat x (S n)) with (repeat x n ++ [x])
    by (rewrite <- repeat_cons; reflexivity).
  rewrite app_assoc. apply last_last.
Qed.

Lemma pad_aligned data : (length (Padding.pad data) mod 16 = 0)%nat.
Proof.
  unfold Padding.pad, Padding.block_size.
  rewrite length_app, repeat_length.
  pose proof (Nat.mod_upper_bound (length data) 16 ltac:(lia)) as Hlt.
  pose proof (Nat.div_mod_eq (length data) 16) as Hdm.
  replace (length data + (16 - length data mod 16))%nat
    with ((length data / 16 + 1) * 16)%nat by lia.
  apply Nat.Div0.mod_mul.
Qed.

Lemma unpad_pad data : Padding.unpad (Padding.pad data) = Some data.
Proof.
  pose proof (pad_aligned data) as Hal.
  unfold Padding.unpad. unfold Padding.pad in *.
  unfold Padding.block_size in *.
  pose proof (Nat.mod_upper_bound (length data) 16 ltac:(lia)) as Hlt.
  set (n := (16 - length data mod 16)%nat) in *.
  assert (Hn : (1 <= n <= 16)%nat) by (subst n; lia).
  destruct n as [|n'] eqn:En; [lia|].
  rewrite last_app_repeat.
  rewrite length_app, repeat_length in *.
  rewrite to_nat_byte_of_N by lia.
  replace (length data + S n' =? 0)%nat with false
    by (symmetry; apply Nat.eqb_neq; lia).
  rewrite Hal. cbn [Nat.eqb negb].
  replace (S n' <? 1)%nat with false by (symmetry; apply Nat.ltb_ge; lia).
  replace (Nat.min 16 (length data + S n') <? S n')%nat with false
    by (symmetry; apply Nat.ltb_ge; lia).
  cbn [orb].
  replace (length data + S n' - S n')%nat with (length data) by lia.
  rewrite drop_app_length, take_app_length.
  rewrite bool_decide_eq_true_2 by reflexivity. reflexivity.
Qed.

Lemma lstrip_byte_repeat c k s :
  Padding.lstrip_byte c (repeat c k ++ s) = Padding.lstrip_byte c s.
Proof.
  induction k as [|k IH]; cbn [repeat app Padding.lstrip_byte]; [reflexivity|].
  rewrite (Byte.byte_dec_lb eq_refl). exact IH.
Qed.

Lemma rstrip_zero_padded s b k :
  b <> x00 ->
  Padding.rstrip_byte x00 ((s ++ [b]) ++ repeat x00 k) = s ++ [b].
Proof.
  intros Hb. unfold Padding.rstrip_byte.
  rewrite rev_app_distr, rev_repeat, lstrip_byte_repeat.
  rewrite rev_app_distr. cbn [rev app Padding.lstrip_byte].
  destruct (Byte.eqb b x00) eqn:Heq.
  - apply Byte.byte_dec_bl in Heq. contradiction.
  - cbn [rev]. rewrite rev_involutive. reflexivity.
Qed.

Lemma unpad_zero_padded s b k :
  (16 < Byte.to_nat b)%nat ->
  Padding.unpad ((s ++ [b]) ++ repeat x00 k) = None.
Proof.
  intros Hb. unfold Padding.unpad, Padding.block_size.
  destruct (length _ =? 0)%nat; [reflexivity|].
  destruct (negb _); [reflexivity|].
  destruct k as [|k].
  - cbn [repeat]. rewrite app_nil_r, last_last.
    replace (Nat.min 16 (length (s ++ [b])) <? Byte.to_nat b)%nat with true
      by (symmetry; apply Nat.ltb_lt; lia).
    rewrite orb_true_r. reflexivity.
  - rewrite last_app_repeat. reflexivity.
Qed.

(** ** AES-128: decryption undoes encryption *)

Lemma byte_eq_bits (a b : byte) : Byte.to_bits a = Byte.to_bits b -> a = b.
Proof.
  intros H. rewrite <- (Byte.of_bits_to_bits a), <- (Byte.of_bits_to_bits b), H.
  reflexivity.
Qed.

Lemma to_bits_bxor a b :
  Byte.to_bits (Aes.bxor a b) = xor8 (Byte.to_bits a) (Byte.to_bits b).
Proof.
  unfold Aes.bxor, xor8.
  destruct (Byte.to_bits a) as (a0 & a1 & a2 & a3 & a4 & a5 & a6 & a7).
  destruct (Byte.to_bits b) as (b0 & b1 & b2 & b3 & b4 & b5 & b6 & b7).
  apply Byte.to_bits_of_bits.
Qed.

Lemma to_bits_xtime a :
  Byte.to_bits (Aes.xtime a) = xtime8 (Byte.to_bits a).
Proof.
  unfold Aes.xtime, xtime8.
  destruct (Byte.to_bits a) as (a0 & a1 & a2 & a3 & a4 & a5 & a6 & a7).
  apply Byte.to_bits_of_bits.
Qed.


Lemma gmul_x02 a : Aes.gmul x02 a = Aes.xtime a.
Proof. destruct a; reflexivity. Qed.
Lemma gmul_x03 a : Aes.gmul x03 a = Aes.bxor (Aes.xtime a) a.
Proof. destruct a; reflexivity. Qed.
Lemma gmul_x09 a :
  Aes.gmul x09 a = Aes.bxor (Aes.xtime (Aes.xtime (Aes.xtime a))) a.
Proof. destruct a; reflexivity. Qed.
Lemma gmul_x0b a :
  Aes.gmul x0b a
  = Aes.bxor (Aes.xtime (Aes.xtime (Aes.xtime a))) (Aes.bxor (Aes.xtime a) a).
Proof. destruct a; reflexivity. Qed.
Lemma gmul_x0d a :
  Aes.gmul x0d a
  = Aes.bxor (Aes.xtime (Aes.xtime (Aes.xtime a)))
             (Aes.bxor (Aes.xtime (Aes.xtime a)) a).
Proof. destruct a; reflexivity. Qed.
Lemma gmul_x0e a :
  Aes.gmul x0e a
  = Aes.bxor (Aes.xtime (Aes.xtime (Aes.xtime a)))
             (Aes.bxor (Aes.xtime (Aes.xtime a)) (Aes.xtime a)).
Proof. destruct a; reflexivity. Qed.

Lemma inv_mix_column_mix_column a0 a1 a2 a3 :
  match Aes.mix_column a0 a1 a2 a3 with
  | [e0; e1; e2; e3] => Aes.inv_mix_column e0 e1 e2 e3
  | _ => []
  end = [a0; a1; a2; a3].
Proof.
  unfold Aes.mix_column, Aes.inv_mix_column.
  rewrite !gmul_x0e, !gmul_x0b, !gmul_x0d, !gmul_x09, !gmul_x02, !gmul_x03.
  repeat (apply (f_equal2 cons); [apply byte_eq_bits|]); try reflexivity.
  all: repeat first [rewrite to_bits_bxor | rewrite to_bits_xtime].
  all: destruct (Byte.to_bits a0) as (p0 & p1 & p2 & p3 & p4 & p5 & p6 & p7).
  all: destruct (Byte.to_bits a1) as (q0 & q1 & q2 & q3 & q4 & q5 & q6 & q7).
  all: destruct (Byte.to_bits a2) as (r0 & r1 & r2 & r3 & r4 & r5 & r6 & r7).
  all: destruct (Byte.to_bits a3) as (s0 & s1 & s2 & s3 & s4 & s5 & s6 & s7).
  all: cbv [xor8 xtime8].
  all: repeat (apply (f_equal2 pair); [btauto|]); btauto.
Qed.

Lemma inv_sbox_sbox a : Aes.inv_sbox (Aes.sbox a) = a.
Proof. destruct a; reflexivity. Qed.

Lemma bxor_cancel a k : Aes.bxor (Aes.bxor a k) k = a.
Proof.
  apply byte_eq_bits. rewrite !to_bits_bxor.
  destruct (Byte.to_bits a) as (p0 & p1 & p2 & p3 & p4 & p5 & p6 & p7).
  destruct (Byte.to_bits k) as (q0 & q1 & q2 & q3 & q4 & q5 & q6 & q7).
  cbv [xor8]. repeat (apply (f_equal2 pair); [btauto|]); btauto.
Qed.

Lemma xor_bytes_length s k :
  length s = length k -> length (Aes.xor_bytes s k) = length s.
Proof.
  revert k. induction s as [|a s IH]; intros [|b k] Hlen; cbn in *;
    try congruence.
  f_equal. apply IH. congruence.
Qed.

Lemma xor_bytes_cancel s k :
  length s = length k -> Aes.xor_bytes (Aes.xor_bytes s k) k = s.
Proof.
  revert k. induction s as [|a s IH]; intros [|b k] Hlen; cbn in *;
    try congruence.
  rewrite bxor_cancel. f_equal. apply IH. congruence.
Qed.

Lemma inv_sub_bytes_sub_bytes s : Aes.inv_sub_bytes (Aes.sub_bytes s) = s.
Proof.
  unfold Aes.inv_sub_bytes, Aes.sub_bytes.
  induction s as [|a s IH]; cbn [map]; [reflexivity|].
  rewrite inv_sbox_sbox, IH. reflexivity.
Qed.

Lemma sub_bytes_length s : length (Aes.sub_bytes s) = length s.
Proof. apply length_map. Qed.

Lemma shift_rows_length s : length (Aes.shift_rows s) = 16%nat.
Proof. reflexivity. Qed.

Lemma inv_shift_rows_shift_rows s :
  length s = 16%nat -> Aes.inv_shift_rows (Aes.shift_rows s) = s.
Proof. intros H. block_elements H. reflexivity. Qed.

Lemma mix_columns_length s :
  length s = 16%nat -> length (Aes.mix_columns s) = 16%nat.
Proof. intros H. block_elements H. reflexivity. Qed.

Lemma inv_mix_columns_mix_columns s :
  length s = 16%nat -> Aes.inv_mix_columns (Aes.mix_columns s) = s.
Proof.
  intros H. block_elements H. cbn [Aes.mix_columns].
  pose proof inv_mix_column_mix_column as Hcol.
  unfold Aes.mix_column in *. cbn [app Aes.inv_mix_columns].
  rewrite !Hcol. reflexivity.
Qed.

Lemma round_length s k :
  length s = 16%nat -> length k = 16%nat -> length (Aes.round s k) = 16%nat.
Proof.
  intros Hs Hk. unfold Aes.round, Aes.add_round_key.
  rewrite xor_bytes_length; rewrite mix_columns_length; auto.
Qed.

(** Undoing one round: the inverse round brings the state back to where
    the round found it, after SubBytes and ShiftRows. *)
Lemma inv_round_round s k :
  length s = 16%nat -> length k = 16%nat ->
  Aes.inv_round (Aes.shift_rows (Aes.sub_bytes (Aes.round s k))) k
  = Aes.shift_rows (Aes.sub_bytes s).
Proof.
  intros Hs Hk. unfold Aes.inv_round, Aes.round, Aes.add_round_key.
  rewrite inv_shift_rows_shift_rows
    by (rewrite sub_bytes_length, xor_bytes_length;
        rewrite mix_columns_length; auto).
  rewrite inv_sub_bytes_sub_bytes.
  rewrite xor_bytes_cancel by (rewrite mix_columns_length; auto).
  apply inv_mix_columns_mix_columns. reflexivity.
Qed.

Lemma fold_round_length mid s :
  Forall (fun k => length k = 16%nat) mid ->
  length s = 16%nat -> length (fold_left Aes.round mid s) = 16%nat.
Proof.
  intros Hmid. revert s.
  induction Hmid as [|k mid Hk _ IH]; intros s Hs; cbn [fold_left];
    [exact Hs|].
  apply IH. apply round_length; assumption.
Qed.

Lemma inv_rounds_rounds mid s :
  Forall (fun k => length k = 16%nat) mid ->
  length s = 16%nat ->
  fold_left Aes.inv_round (rev mid)
    (Aes.shift_rows (Aes.sub_bytes (fold_left Aes.round mid s)))
  = Aes.shift_rows (Aes.sub_bytes s).
Proof.
  intros Hmid. revert s.
  induction Hmid as [|k mid Hk Hmid IH]; intros s Hs; cbn [rev fold_left];
    [reflexivity|].
  rewrite fold_left_app. cbn [fold_left].
  rewrite IH by (apply round_length; assumption).
  apply inv_round_round; assumption.
Qed.

Lemma inv_cipher_cipher k0 mid klast block :
  length k0 = 16%nat -> Forall (fun k => length k = 16%nat) mid ->
  length klast = 16%nat -> length block = 16%nat ->
  Aes.inv_cipher k0 mid klast (Aes.cipher k0 mid klast block) = block.
Proof.
  intros H0 Hmid Hlast Hb.
  unfold Aes.inv_cipher, Aes.cipher, Aes.final_round, Aes.inv_final_round,
    Aes.add_round_key.
  rewrite xor_bytes_cancel by (rewrite shift_rows_length; auto).
  rewrite inv_rounds_rounds by (try rewrite xor_bytes_length; auto; congruence).
  rewrite inv_shift_rows_shift_rows
    by (rewrite sub_bytes_length, xor_bytes_length; congruence).
  rewrite inv_sub_bytes_sub_bytes.
  apply xor_bytes_cancel. congruence.
Qed.

Lemma cipher_length k0 mid klast block :
  length klast = 16%nat ->
  length (Aes.cipher k0 mid klast block) = 16%nat.
Proof.
  intros Hlast. unfold Aes.cipher, Aes.final_round, Aes.add_round_key.
  rewrite xor_bytes_length; rewrite shift_rows_length; auto.
Qed.

Lemma next_round_key_length rcon k :
  length k = 16%nat -> length (Aes.next_round_key rcon k) = 16%nat.
Proof. intros H. block_elements H. reflexivity. Qed.

Lemma expand_lengths n rcon k :
  length k = 16%nat ->
  Forall (fun k' => length k' = 16%nat) (Aes.expand n rcon k).
Proof.
  revert rcon k. induction n as [|n IH]; intros rcon k Hk; cbn;
    constructor.
  - apply next_round_key_length, Hk.
  - apply IH, next_round_key_length, Hk.
Qed.

Lemma decrypt_block_encrypt_block key block :
  length key = 16%nat -> length block = 16%nat ->
  Aes.decrypt_block key (Aes.encrypt_block key block) = block.
Proof.
  intros Hkey Hb. unfold Aes.decrypt_block, Aes.encrypt_block.
  pose proof (expand_lengths 10 x01 key Hkey) as Hks.
  fold (Aes.key_schedule key) in Hks.
  assert (Hlen : length (Aes.key_schedule key) = 10%nat).
  { unfold Aes.key_schedule. generalize x01 key.
    generalize 10%nat. induction n; intros; cbn; auto. }
  apply inv_cipher_cipher; auto.
  - apply Forall_take. exact Hks.
  - rewrite List.Forall_forall in Hks. apply Hks. apply nth_In. lia.
Qed.

Lemma encrypt_block_length key block :
  length key = 16%nat -> length (Aes.encrypt_block key block) = 16%nat.
Proof.
  intros Hkey. unfold Aes.encrypt_block. apply cipher_length.
  pose proof (expand_lengths 10 x01 key Hkey) as Hks.
  fold (Aes.key_schedule key) in Hks.
  assert (Hlen : length (Aes.key_schedule key) = 10%nat).
  { unfold Aes.key_schedule. generalize x01 key.
    generalize 10%nat. induction n; intros; cbn; auto. }
  rewrite List.Forall_forall in Hks. apply Hks. apply nth_In. lia.
Qed.

(** *** ECB *)

Lemma ecb_nil fuel f : Aes.ecb fuel f [] = [].
Proof. destruct fuel; reflexivity. Qed.

Lemma ecb_round_trip (f g : pybytes -> pybytes) :
  (forall b, length b = 16%nat -> length (f b) = 16%nat /\ g (f b) = b) ->
  forall n data fuel1 fuel2,
    length data = (16 * n)%nat -> (n <= fuel1)%nat -> (n <= fuel2)%nat ->
    length (Aes.ecb fuel1 f data) = length data
    /\ Aes.ecb fuel2 g (Aes.ecb fuel1 f data) = data.
Proof.
  intros Hfg. induction n as [|n IH]; intros data fuel1 fuel2 Hlen H1 H2.
  - destruct data; [|discriminate]. rewrite !ecb_nil. split; reflexivity.
  - destruct fuel1 as [|fuel1]; [lia|]. destruct fuel2 as [|fuel2]; [lia|].
    destruct data as [|a data']; [discriminate|].
    set (data := a :: data') in *.
    change (Aes.ecb (S fuel1) f data)
      with (f (take 16 data) ++ Aes.ecb fuel1 f (drop 16 data)).
    assert (Hb : length (take 16 data) = 16%nat)
      by (rewrite length_take; lia).
    assert (Hr : length (drop 16 data) = (16 * n)%nat)
      by (rewrite length_drop; lia).
    destruct (Hfg _ Hb) as [Hfb Hgf].
    destruct (IH (drop 16 data) fuel1 fuel2 Hr ltac:(lia) ltac:(lia))
      as [IHlen IHeq].
    split.
    + rewrite length_app, Hfb, IHlen, Hr. lia.
    + destruct (f (take 16 data)) as [|x0 x] eqn:Hx; [discriminate|].
      change (Aes.ecb (S fuel2) g ((x0 :: x) ++ ?r))
        with (g (take 16 ((x0 :: x) ++ r))
              ++ Aes.ecb fuel2 g (drop 16 ((x0 :: x) ++ r))).
      rewrite (take_app_length' _ _ 16 (eq_sym Hfb)),
        (drop_app_length' _ _ 16 (eq_sym Hfb)).
      rewrite Hgf, IHeq. apply take_drop.
Qed.

Lemma ecb_decrypt_encrypt key data ct :
  length key = 16%nat ->
  Aes.ecb_encrypt key data = Some ct -> Aes.ecb_decrypt key ct = Some data.
Proof.
  intros Hkey. unfold Aes.ecb_encrypt, Aes.ecb_decrypt.
  destruct (length data mod 16 =? 0)%nat eqn:Hal; [|discriminate].
  intros [= <-]. apply Nat.eqb_eq in Hal.
  assert (Hn : length data = (16 * (length data / 16))%nat).
  { pose proof (Nat.div_mod_eq (length data) 16). lia. }
  assert (Hle : (length data / 16 <= length data)%nat) by lia.
  destruct (ecb_round_trip (Aes.encrypt_block key) (Aes.decrypt_block key))
    with (n := (length data / 16)%nat) (data := data)
         (fuel1 := length data) (fuel2 := length data) as [Hlen Heq];
    try assumption.
  { intros b Hb. split.
    - apply encrypt_block_length, Hkey.
    - apply decrypt_block_encrypt_block; assumption. }
  rewrite Hlen, Hal. cbn [Nat.eqb]. rewrite Heq. reflexivity.
Qed.

(** *** The checksum of the sending device *)

Lemma lxor_lt_pow2 a b n : a < 2 ^ n -> b < 2 ^ n -> N.lxor a b < 2 ^ n.
Proof.
  intros Ha Hb.
  destruct (N.eq_dec (N.lxor a b) 0) as [->|Hnz].
  { apply N.neq_0_lt_0, N.pow_nonzero. discriminate. }
  apply N.log2_lt_pow2; [lia|].
  eapply N.le_lt_trans; [apply N.log2_lxor|].
  destruct (N.eq_dec a 0) as [->|Ha0]; destruct (N.eq_dec b 0) as [->|Hb0].
  - exfalso. apply Hnz. reflexivity.
  - rewrite N.max_r by (cbn; lia). apply N.log2_lt_pow2; [lia|exact Hb].
  - rewrite N.max_l by (cbn; lia). apply N.log2_lt_pow2; [lia|exact Ha].
  - apply N.max_lub_lt; apply N.log2_lt_pow2; try lia; assumption.
Qed.

Lemma crc_step_bound c : c < 2 ^ 32 -> Zlib.crc_step c < 2 ^ 32.
Proof.
  intros Hc. unfold Zlib.crc_step.
  assert (Hh : c / 2 < 2 ^ 32).
  { eapply N.le_lt_trans; [|exact Hc]. apply N.Div0.div_le_upper_bound. lia. }
  destruct (N.odd c); [|exact Hh].
  apply lxor_lt_pow2; [exact Hh|reflexivity].
Qed.

Lemma crc_byte_bound c b : c < 2 ^ 32 -> Zlib.crc_byte c b < 2 ^ 32.
Proof.
  intros Hc. unfold Zlib.crc_byte.
  assert (Hx : N.lxor c (Byte.to_N b) < 2 ^ 32).
  { apply lxor_lt_pow2; [exact Hc|].
    pose proof (Byte.to_N_bounded b). lia. }
  revert Hx. generalize (N.lxor c (Byte.to_N b)). intros x Hx.
  change (N.iter 8 Zlib.crc_step x)
    with (Zlib.crc_step (Zlib.crc_step (Zlib.crc_step (Zlib.crc_step
           (Zlib.crc_step (Zlib.crc_step (Zlib.crc_step (Zlib.crc_step x)))))))).
  repeat apply crc_step_bound. exact Hx.
Qed.

Lemma crc32_bound data : Zlib.crc32 data < 2 ^ 32.
Proof.
  unfold Zlib.crc32. apply lxor_lt_pow2; [|reflexivity].
  assert (H : forall c, c < 2 ^ 32 -> fold_left Zlib.crc_byte data c < 2 ^ 32).
  { induction data as [|b data IH]; intros c Hc; cbn [fold_left];
      [exact Hc|]. apply IH, crc_byte_bound, Hc. }
  apply H. reflexivity.
Qed.

Lemma hex_digit_table d :
  d < 16 -> Str.hex_digit d = nth (N.to_nat d) HEX_DIGITS 48.
Proof.
  intros Hd.
  assert (Hc : d = 0 \/ d = 1 \/ d = 2 \/ d = 3 \/ d = 4 \/ d = 5 \/ d = 6
               \/ d = 7 \/ d = 8 \/ d = 9 \/ d = 10 \/ d = 11 \/ d = 12
               \/ d = 13 \/ d = 14 \/ d = 15) by lia.
  repeat (destruct Hc as [->|Hc]; [reflexivity|]). subst d. reflexivity.
Qed.

Lemma hex_fixed_small w n :
  n / 16 = 0 ->
  hex_fixed (S w) n = repeat 48 w ++ [Str.hex_digit (n mod 16)].
Proof.
  intros Hq. cbn [hex_fixed]. rewrite Hq.
  rewrite <- hex_digit_table by (apply N.mod_upper_bound; discriminate).
  f_equal. clear. induction w as [|w IH]; [reflexivity|].
  cbn [hex_fixed]. change (0 / 16) with 0. rewrite IH.
  change (nth (N.to_nat (0 mod 16)) HEX_DIGITS 48) with 48.
  rewrite <- repeat_cons. reflexivity.
Qed.

Lemma hex_digits_fixed w : forall fuel n acc,
  n < 16 ^ N.of_nat (S w) -> n < 16 ^ N.of_nat (S fuel) ->
  exists z,
    hex_fixed (S w) n ++ acc = repeat 48 z ++ Str.hex_digits (S fuel) n acc
    /\ (z + length (Str.hex_digits (S fuel) n acc) = S w + length acc)%nat.
Proof.
  induction w as [|w IH]; intros fuel n acc Hw Hf.
  - assert (Hq : n / 16 = 0) by (apply N.div_small; exact Hw).
    exists 0%nat. rewrite (hex_fixed_small 0 n Hq).
    cbn [Str.hex_digits]. rewrite Hq. cbn. split; reflexivity.
  - cbn [Str.hex_digits]. destruct (n / 16 =? 0) eqn:Hq.
    + apply N.eqb_eq in Hq. exists (S w).
      rewrite (hex_fixed_small (S w) n Hq), <- app_assoc. cbn [app length].
      split; [reflexivity|]. lia.
    + apply N.eqb_neq in Hq.
      assert (Hdiv : forall k, n < 16 ^ N.of_nat (S k) -> n / 16 < 16 ^ N.of_nat k).
      { intros k Hk. apply N.Div0.div_lt_upper_bound.
        rewrite Nat2N.inj_succ, N.pow_succ_r' in Hk. exact Hk. }
      destruct fuel as [|fuel].
      { exfalso. apply Hq. apply N.div_small. exact Hf. }
      destruct (IH fuel (n / 16) (Str.hex_digit (n mod 16) :: acc)
                  (Hdiv _ Hw) (Hdiv _ Hf)) as (z & Heq & Hlen).
      exists z. split.
      * rewrite <- Heq.
        change (hex_fixed (S (S w)) n)
          with (hex_fixed (S w) (n / 16)
                ++ [nth (N.to_nat (n mod 16)) HEX_DIGITS 48]).
        rewrite <- hex_digit_table by (apply N.mod_upper_bound; discriminate).
        rewrite <- app_assoc. reflexivity.
      * cbn [length] in Hlen. lia.
Qed.

Lemma format_08X_fixed n : n < 2 ^ 32 -> Str.format_08X n = hex_fixed 8 n.
Proof.
  intros Hn. unfold Str.format_08X, Str.hex_upper.
  assert (Hf : n < 16 ^ N.of_nat (S (N.to_nat (N.log2 n)))).
  { destruct (N.eq_dec n 0) as [->|Hnz]; [reflexivity|].
    destruct (N.log2_spec n ltac:(lia)) as [_ Hlt].
    eapply N.lt_le_trans; [exact Hlt|].
    rewrite Nat2N.inj_succ, N2Nat.id.
    change 16 with (2 ^ 4). rewrite <- N.pow_mul_r.
    apply N.pow_le_mono_r; [discriminate|]. lia. }
  destruct (hex_digits_fixed 7 (N.to_nat (N.log2 n)) n [] Hn Hf)
    as (z & Heq & Hlen).
  rewrite app_nil_r in Heq. rewrite Heq. cbn [length] in Hlen.
  replace (8 - length (Str.hex_digits (S (N.to_nat (N.log2 n))) n []))%nat
    with z by lia.
  reflexivity.
Qed.

Lemma calculate_crc32_sender data :
  calculate_crc32 (inl data) = sender_checksum data.
Proof.
  unfold calculate_crc32, sender_checksum.
  destruct (Utf8.encode data) as [bs|]; [|reflexivity].
  cbn [mbind option_bind]. pose proof (crc32_bound bs) as Hb.
  change 0xFFFFFFFF with (N.ones 32).
  rewrite N.land_ones, N.mod_small by exact Hb.
  rewrite format_08X_fixed by exact Hb. reflexivity.
Qed.

(** *** The round trip *)

Lemma sender_plaintext_shape data pt :
  sender_plaintext data = Some pt ->
  exists crc s h,
    calculate_crc32 (inl data) = Some crc
    /\ Forall is_hex_char crc /\ length crc = 8%nat
    /\ Utf8.decode pt = Some (data ++ BAR :: crc)
    /\ pt = s ++ [byte_of_N h] /\ is_hex_char h.
Proof.
  unfold sender_plaintext. rewrite <- calculate_crc32_sender.
  destruct (calculate_crc32 (inl data)) as [crc|] eqn:Hcrc; [|discriminate].
  cbn [mbind option_bind]. intros Hpt.
  assert (Hhex : Forall is_hex_char crc /\ length crc = 8%nat).
  { unfold calculate_crc32 in Hcrc.
    destruct (Utf8.encode data); [|discriminate].
    cbn [mbind option_bind] in Hcrc. injection Hcrc as <-.
    split; [apply format_08X_is_hex|].
    apply format_08X_length, land_mask_bound. }
  destruct Hhex as [Hhex Hlen].
  destruct (exists_last (l := crc)) as (crc' & h & ->); [intros ->; discriminate|].
  exists (crc' ++ [h]).
  assert (Hh : is_hex_char h).
  { apply Forall_app in Hhex. destruct Hhex as [_ Hh]. inversion Hh. assumption. }
  pose proof (decode_encode _ _ Hpt) as Hdec.
  destruct (Utf8.encode data) as [pb|] eqn:Hpb.
  2:{ unfold calculate_crc32 in Hcrc. rewrite Hpb in Hcrc. discriminate. }
  assert (Hascii : Forall (fun c => c < 0x80) (BAR :: crc' ++ [h])).
  { constructor; [reflexivity|].
    eapply Forall_impl; [exact Hhex|]. unfold is_hex_char. intros; lia. }
  rewrite (encode_app _ _ _ _ Hpb (encode_ascii _ Hascii)) in Hpt.
  injection Hpt as <-.
  exists (pb ++ map byte_of_N (BAR :: crc')), h.
  repeat split; try assumption.
  cbn [map]. rewrite map_app. cbn [map]. rewrite <- !app_assoc. reflexivity.
Qed.

Lemma hex_byte_not_padding h :
  is_hex_char h ->
  byte_of_N h <> x00 /\ (16 < Byte.to_nat (byte_of_N h))%nat.
Proof.
  intros Hh. unfold is_hex_char in Hh.
  assert (Hn : Byte.to_nat (byte_of_N h) = N.to_nat h).
  { rewrite <- (Nat2N.id (Byte.to_nat _)), <- Byte.to_N_via_nat.
    rewrite to_N_byte_of_N by lia. reflexivity. }
  split; [|lia]. intros Hz. rewrite Hz in Hn. cbn in Hn. lia.
Qed.

Lemma decrypt_aes_sender_encrypt scheme data ct :
  sender_encrypt scheme data = Some ct ->
  exists crc,
    calculate_crc32 (inl data) = Some crc
    /\ Forall is_hex_char crc /\ length crc = 8%nat
    /\ decrypt_aes ct = Some (data ++ BAR :: crc).
Proof.
  unfold sender_encrypt.
  destruct (sender_plaintext data) as [pt|] eqn:Hpt; [|discriminate].
  cbn [mbind option_bind]. intros Henc.
  destruct (sender_plaintext_shape data pt Hpt)
    as (crc & s & h & Hcrc & Hhex & Hlen & Hdec & -> & Hh).
  exists crc. repeat split; try assumption.
  unfold decrypt_aes.
  rewrite (ecb_decrypt_encrypt AES_KEY _ ct eq_refl Henc).
  cbn [mbind option_bind].
  destruct (hex_byte_not_padding h Hh) as [Hnz Hbig].
  destruct scheme as [|k]; cbn [apply_padding].
  - rewrite unpad_pad. exact Hdec.
  - rewrite unpad_zero_padded by exact Hbig.
    rewrite rstrip_zero_padded by exact Hnz. exact Hdec.
Qed.

Lemma verify_checksum_valid data crc :
  calculate_crc32 (inl data) = Some crc ->
  Forall is_hex_char crc ->
  verify_checksum (data ++ BAR :: crc) = (data, Some true).
Proof.
  intros Hcrc Hhex. unfold verify_checksum, verify_checksum_try, Str.rsplit1.
  rewrite contains_app. cbn [negb].
  rewrite cut_last_app.
  2:{ eapply Forall_impl; [exact Hhex|]. unfold is_hex_char, BAR. intros; lia. }
  cbn [lookup list_lookup mbind option_bind].
  rewrite strip_no_space.
  2:{ eapply Forall_impl; [exact Hhex|]. apply is_hex_not_space. }
  rewrite Hcrc. cbn [mbind option_bind].
  rewrite bool_decide_eq_true_2 by reflexivity. reflexivity.
Qed.

(** C1. Round trip: when the sending device encrypts the text
    data|CHECKSUM, CHECKSUM being the CRC-32 of the data as 8 uppercase
    hexadecimal digits, with PKCS#7 or zero padding, then decrypting and
    verifying the ciphertext gives the data back with the checksum
    valid: the checksum the gateway computes is the one the device
    appended. *)
Theorem verify_round_trip (scheme : padding_scheme) (data : pystr)
    (ct : pybytes) :
  sender_encrypt scheme data = Some ct ->
  crypto_verify ct = (Some data, Some true)
  /\ (exists bs crc,
        Utf8.encode data = Some bs
        /\ crc = hex_fixed 8 (Zlib.crc32 bs)
        /\ sender_checksum data = Some crc
        /\ calculate_crc32 (inl data) = Some crc
        /\ length crc = 8%nat /\ Forall is_hex_char crc
        /\ decrypt_aes ct = Some (data ++ BAR :: crc)
        /\ verify_checksum (data ++ BAR :: crc) = (data, Some true)).
Proof.
  intros Henc.
  destruct (decrypt_aes_sender_encrypt scheme data ct Henc)
    as (crc & Hcrc & Hhex & Hlen & Hdec).
  pose proof (verify_checksum_valid data crc Hcrc Hhex) as Hv.
  split.
  - unfold crypto_verify, ENABLE_CHECKSUM_VERIFICATION. rewrite Hdec.
    destruct (data ++ BAR :: crc) as [|c s] eqn:Hs.
    + destruct data; discriminate.
    + rewrite Hv. reflexivity.
  - assert (Hsend : sender_checksum data = Some crc)
      by (rewrite <- calculate_crc32_sender; exact Hcrc).
    pose proof Hsend as Hfixed. unfold sender_checksum in Hfixed.
    destruct (Utf8.encode data) as [bs|] eqn:Hbs; [|discriminate].
    cbn [mbind option_bind] in Hfixed.
    assert (Hcrc8 : crc = hex_fixed 8 (Zlib.crc32 bs)) by congruence.
    exists bs, crc. repeat split; assumption.
Qed.

Lemma verify_round_trip_witness :
  crypto_verify sample_ciphertext = (Some sample_data, Some true)
  /\ (exists bs crc,
        Utf8.encode sample_data = Some bs
        /\ crc = hex_fixed 8 (Zlib.crc32 bs)
        /\ sender_checksum sample_data = Some crc
        /\ calculate_crc32 (inl sample_data) = Some crc
        /\ length crc = 8%nat /\ Forall is_hex_char crc
        /\ decrypt_aes sample_ciphertext = Some (sample_data ++ BAR :: crc)
        /\ verify_checksum (sample_data ++ BAR :: crc)
           = (sample_data, Some true)).
Proof.
  apply (verify_round_trip Pkcs7 sample_data sample_ciphertext).
  vm_compute. reflexivity.
Defined.

(** Every text of Unicode scalar values has a ciphertext under PKCS#7. *)
Lemma encode_char_scalar c : is_scalar c -> is_Some (Utf8.encode_char c).
Proof.
  intros [Hlt Hs]. unfold Utf8.encode_char. rewrite Hs.
  apply N.ltb_lt in Hlt. rewrite Hlt.
  destruct (c <? 0x80), (c <? 0x800), (c <? 0x10000); eexists; reflexivity.
Qed.

Lemma encode_scalar s : Forall is_scalar s -> is_Some (Utf8.encode s).
Proof.
  induction 1 as [|c t Hc _ [r IH]]; cbn [Utf8.encode]; [eexists; reflexivity|].
  destruct (encode_char_scalar c Hc) as [cb ->]. rewrite IH.
  eexists; reflexivity.
Qed.

Lemma sender_encrypt_pkcs7_total data :
  Forall is_scalar data -> is_Some (sender_encrypt Pkcs7 data).
Proof.
  intros Hdata. destruct (encode_scalar data Hdata) as [pb Hpb].
  unfold sender_encrypt, sender_plaintext.
  rewrite <- calculate_crc32_sender. unfold calculate_crc32. rewrite Hpb.
  cbn [mbind option_bind].
  set (crc := Str.format_08X _).
  assert (Hascii : Forall (fun c => c < 0x80) (BAR :: crc)).
  { constructor; [reflexivity|].
    eapply Forall_impl; [apply format_08X_is_hex|].
    unfold is_hex_char. intros; lia. }
  rewrite (encode_app _ _ _ _ Hpb (encode_ascii _ Hascii)).
  cbn [mbind option_bind apply_padding]. unfold Aes.ecb_encrypt.
  rewrite pad_aligned. cbn [Nat.eqb]. eexists; reflexivity.
Qed.

(** *** The models against published values *)

(** FIPS 197, appendix B: the cipher key of the gateway on the example
    block. *)
Example aes_fips197_appendix_b :
  Aes.encrypt_block AES_KEY
    [x32; x43; xf6; xa8; x88; x5a; x30; x8d;
     x31; x31; x98; xa2; xe0; x37; x07; x34]
  = [x39; x25; x84; x1d; x02; xdc; x09; xfb;
     xdc; x11; x85; x97; x19; x6a; x0b; x32].
Proof. vm_compute. reflexivity. Qed.

(** The CRC-32 check value: the digits 123456789 give CBF43926, for
    the CRC itself, as the sending device renders it, and as the
    gateway computes it. *)
Example crc32_model_check_value :
  Zlib.crc32 [x31; x32; x33; x34; x35; x36; x37; x38; x39] = 0xCBF43926
  /\ sender_checksum [49; 50; 51; 52; 53; 54; 55; 56; 57]
     = Some [67; 66; 70; 52; 51; 57; 50; 54].
Proof. vm_compute. split; reflexivity. Qed.

Example crc32_check_value :
  calculate_crc32 (inl [49; 50; 51; 52; 53; 54; 55; 56; 57])
  = Some [67; 66; 70; 52; 51; 57; 50; 54].
Proof. vm_compute. reflexivity. Qed.

(** The text A, e acute, euro sign, U+1F600 in UTF-8. *)
Example utf8_sample :
  Utf8.encode [0x41; 0xE9; 0x20AC; 0x1F600]
  = Some [x41; xc3; xa9; xe2; x82; xac; xf0; x9f; x98; x80].
Proof. vm_compute. reflexivity. Qed.

#[local] Close Scope N_scope.
#[local] Open Scope Z_scope.

(** ** The handler, field by field *)

Lemma on_message_last_packet_time d e msg st :
  last_packet_time (on_message d e msg st)
  = <[msg_topic msg := env_time e]> (last_packet_time st).
Proof. on_message_cases; reflexivity. Qed.

Lemma on_message_blocked_ips d e msg st :
  blocked_ips (on_message d e msg st) = blocked_ips st.
Proof. on_message_cases; reflexivity. Qed.

Lemma on_message_ips_blocked d e msg st :
  ips_blocked (on_message d e msg st) = ips_blocked st.
Proof. on_message_cases; reflexivity. Qed.

Lemma on_message_commands_run d e msg st :
  commands_run (on_message d e msg st) = commands_run st.
Proof. on_message_cases; reflexivity. Qed.

Lemma on_message_attack_log d e msg st :
  exists new,
    attack_log (on_message d e msg st) = attack_log st ++ new
    /\ Forall (fun entry => log_source_ip entry = None) new.
Proof.
  on_message_cases;
    first [ exists []; split; [symmetry; apply app_nil_r | constructor]
          | eexists [_]; split; [reflexivity | repeat constructor] ].
Qed.

(** A property kept by every step holds along a whole run. *)
Lemma fold_left_preserves {S A : Type} (f : S -> A -> S) (P : S -> Prop) :
  (forall s a, P s -> P (f s a)) ->
  forall l s, P s -> P (fold_left f l s).
Proof.
  intros Hstep l. induction l as [|a l IH]; intros s Hs; cbn; auto.
Qed.

Lemma on_message_attacks_detected_no_model d e msg st :
  ml_model d = None ->
  attacks_detected (on_message d e msg st) = attacks_detected st.
Proof.
  intros Hnone. unfold on_message, detect_intrusion, flow_delta. rewrite Hnone.
  destruct (bool_decide _), (extract_features _ _ _); reflexivity.
Qed.

Lemma on_message_attacks_detected d e msg st f :
  features_of e msg st = Return f ->
  attacks_detected (on_message d e msg st)
  = attacks_detected st + (if fst (detect_intrusion d f) then 1 else 0).
Proof.
  unfold features_of, on_message, flow_delta, log_attack.
  destruct (bool_decide _); cbn; intros ->;
    destruct (detect_intrusion d f) as [[|] c]; cbn [fst];
    destruct (env_log_ok e); cbn; lia.
Qed.

Lemma on_message_logs_attack d e msg st f c :
  features_of e msg st = Return f ->
  detect_intrusion d f = (true, c) ->
  env_log_ok e = true ->
  attack_log (on_message d e msg st)
  = attack_log st
    ++ [ {| log_timestamp := env_now e;
            log_topic := msg_topic msg;
            log_length := Z.of_nat (length (msg_payload msg));
            log_source_ip := None;
            log_confidence := c |} ].
Proof.
  unfold features_of, on_message, flow_delta, log_attack.
  destruct (bool_decide _); cbn; intros -> -> ->; reflexivity.
Qed.

Lemma on_message_checksum_failures d e msg st :
  checksum_failures (on_message d e msg st)
  = checksum_failures st
    + (if bool_decide (snd (crypto_verify (msg_payload msg)) = Some false)
       then 1 else 0).
Proof. on_message_cases; lia. Qed.

(** ** Checksum verification *)

Lemma verify_checksum_no_delimiter s :
  Str.contains BAR s = false -> verify_checksum s = (s, None).
Proof.
  intros Hno. unfold verify_checksum, verify_checksum_try.
  rewrite Hno. reflexivity.
Qed.

(** C6. A decrypted text with no | delimiter: [verify_checksum] returns
    the whole text and [None], not [False], and handling a message that
    decrypts to it leaves the checksum-failures counter as it was. *)
Theorem missing_delimiter_unknown (s : pystr) :
  Str.contains BAR s = false ->
  verify_checksum s = (s, None)
  /\ snd (verify_checksum s) <> Some false
  /\ (forall d e msg st,
        decrypt_aes (msg_payload msg) = Some s ->
        snd (crypto_verify (msg_payload msg)) = None
        /\ checksum_failures (on_message d e msg st) = checksum_failures st).
Proof.
  intros Hno. pose proof (verify_checksum_no_delimiter s Hno) as Hv.
  split; [exact Hv|]. split; [rewrite Hv; discriminate|].
  intros d e msg st Hdec.
  assert (Hc : snd (crypto_verify (msg_payload msg)) = None).
  { unfold crypto_verify, ENABLE_CHECKSUM_VERIFICATION. rewrite Hdec.
    destruct s as [|c s']; [reflexivity|]. cbv beta iota.
    rewrite Hv. reflexivity. }
  split; [exact Hc|].
  rewrite on_message_checksum_failures, Hc.
  rewrite bool_decide_eq_false_2 by discriminate. lia.
Qed.

Lemma missing_delimiter_unknown_witness :
  verify_checksum sample_topic = (sample_topic, None)
  /\ snd (verify_checksum sample_topic) <> Some false
  /\ (forall d e msg st,
        decrypt_aes (msg_payload msg) = Some sample_topic ->
        snd (crypto_verify (msg_payload msg)) = None
        /\ checksum_failures (on_message d e msg st) = checksum_failures st).
Proof.
  apply (missing_delimiter_unknown sample_topic). reflexivity.
Defined.

(** ** Flow timing *)

Lemma ingest_last_packet_time_other d K events st :
  Forall (fun em => msg_topic (snd em) <> K) events ->
  last_packet_time (ingest d events st) !! K = last_packet_time st !! K.
Proof.
  intros Hother. revert st.
  induction Hother as [|[e msg] events Hne _ IH]; intros st; [reflexivity|].
  unfold ingest in *. cbn [fold_left fst snd] in *.
  rewrite IH, on_message_last_packet_time.
  apply lookup_insert_ne. exact Hne.
Qed.

(** C2. Flow timing contract: the first time a topic is seen in a run
    the time delta is 0; when a message on the topic was handled at time
    [t1] and the next one on it arrives at [t2], whatever other topics
    came in between, the time delta is [t2 - t1], and handling that
    message makes [t2] the topic's last-seen time. *)
Theorem flow_delta_contract (d : detector) (K : pystr) (e1 e2 : env)
    (msg1 msg2 : message) (before between : list (env * message))
    (st : ids_state) :
  msg_topic msg1 = K ->
  msg_topic msg2 = K ->
  Forall (fun em => msg_topic (snd em) <> K) before ->
  Forall (fun em => msg_topic (snd em) <> K) between ->
  fst (flow_delta K (env_time e1) (ingest d before initial_state)) = 0%float
  /\ (let st2 := ingest d between (on_message d e1 msg1 st) in
      fst (flow_delta K (env_time e2) st2) = (env_time e2 - env_time e1)%float
      /\ last_packet_time (snd (flow_delta K (env_time e2) st2)) !! K
         = Some (env_time e2)
      /\ last_packet_time (on_message d e2 msg2 st2) !! K
         = Some (env_time e2)).
Proof.
  intros H1 H2 Hbefore Hbetween. split.
  - unfold flow_delta; cbn.
    rewrite (ingest_last_packet_time_other d K before _ Hbefore).
    reflexivity.
  - cbn zeta.
    set (st2 := ingest d between (on_message d e1 msg1 st)).
    assert (Hlast : last_packet_time st2 !! K = Some (env_time e1)).
    { subst st2.
      rewrite (ingest_last_packet_time_other d K between _ Hbetween).
      rewrite on_message_last_packet_time, H1. apply lookup_insert_eq. }
    unfold flow_delta. cbn [fst snd set_last_packet_time last_packet_time].
    rewrite Hlast, on_message_last_packet_time, H2.
    rewrite !lookup_insert_eq. repeat split.
Qed.

Lemma flow_delta_contract_witness :
  let other := {| msg_topic := [121%N]; msg_payload := [] |} in
  let msg := {| msg_topic := sample_topic; msg_payload := [] |} in
  fst (flow_delta sample_topic (env_time (env_at 1%float))
         (ingest no_detector [] initial_state))
  = 0%float
  /\ (let st2 :=
        ingest no_detector [(env_at 2%float, other)]
          (on_message no_detector (env_at 1%float) msg initial_state) in
      fst (flow_delta sample_topic (env_time (env_at 3%float)) st2)
      = (env_time (env_at 3%float) - env_time (env_at 1%float))%float
      /\ last_packet_time
           (snd (flow_delta sample_topic (env_time (env_at 3%float)) st2))
           !! sample_topic
         = Some (env_time (env_at 3%float))
      /\ last_packet_time (on_message no_detector (env_at 3%float) msg st2)
           !! sample_topic
         = Some (env_time (env_at 3%float))).
Proof.
  apply (flow_delta_contract no_detector sample_topic
           (env_at 1%float) (env_at 3%float)
           {| msg_topic := sample_topic; msg_payload := [] |}
           {| msg_topic := sample_topic; msg_payload := [] |}
           []
           [(env_at 2%float, {| msg_topic := [121%N]; msg_payload := [] |})]
           initial_state).
  - reflexivity.
  - reflexivity.
  - constructor.
  - repeat constructor. cbn. discriminate.
Defined.

(** ** Binary64 arithmetic *)

Lemma SFcompare_Lt_swap x y :
  SFcompare x y = Some Lt -> SFcompare y x = Some Gt.
Proof.
  destruct x as [sx|sx| |sx mx ex], y as [sy|sy| |sy my ey]; cbn;
    try discriminate;
    try (destruct sx; try destruct sy; cbn; congruence).
  pose proof (Pos.compare_cont_antisym mx my Eq) as Hm; cbn in Hm.
  rewrite <- Hm, (Z.compare_antisym ex ey).
  destruct sx, sy; try congruence;
    destruct (ex ?= ey); cbn; try congruence;
    destruct (Pos.compare_cont Eq mx my); cbn; congruence.
Qed.

Lemma ltb_not_geb (x y : float) :
  (x <? y)%float = true -> (y <=? x)%float = false.
Proof.
  rewrite FloatAxioms.ltb_spec, FloatAxioms.leb_spec. unfold SFltb, SFleb.
  destruct (SFcompare (Prim2SF x) (Prim2SF y)) as [[| |]|] eqn:Hc;
    try discriminate.
  intros _. rewrite (SFcompare_Lt_swap _ _ Hc). reflexivity.
Qed.

Lemma iter_pos_nat {A : Type} (f : A -> A) p x :
  SpecFloat.iter_pos f p x = Nat.iter (Pos.to_nat p) f x.
Proof.
  revert x. induction p as [p IH|p IH|]; intros x; cbn [SpecFloat.iter_pos].
  - rewrite !IH, Pos2Nat.inj_xI.
    replace (S (2 * Pos.to_nat p)) with (Pos.to_nat p + S (Pos.to_nat p))%nat
      by lia.
    rewrite Nat.iter_add, Nat.iter_succ_r. reflexivity.
  - rewrite !IH, Pos2Nat.inj_xO.
    replace (2 * Pos.to_nat p)%nat with (Pos.to_nat p + Pos.to_nat p)%nat
      by lia.
    rewrite Nat.iter_add. reflexivity.
  - reflexivity.
Qed.

Lemma shr_1_m mrs : 0 <= shr_m mrs -> shr_m (shr_1 mrs) = Z.div2 (shr_m mrs).
Proof.
  destruct mrs as [m r s]. cbn [shr_m]. intros Hm.
  destruct m as [|[p|p|]|p]; try reflexivity. lia.
Qed.

Lemma iter_shr_1_m n mrs :
  0 <= shr_m mrs ->
  shr_m (Nat.iter n shr_1 mrs) = Z.shiftr (shr_m mrs) (Z.of_nat n).
Proof.
  intros Hm. induction n as [|n IH].
  - cbn. rewrite Z.shiftr_0_r. reflexivity.
  - rewrite Nat.iter_succ, shr_1_m.
    + rewrite IH, Nat2Z.inj_succ, Z.div2_spec, Z.shiftr_shiftr by lia.
      reflexivity.
    + rewrite IH. apply Z.shiftr_nonneg. exact Hm.
Qed.

Lemma shr_spec mrs e n :
  0 <= shr_m mrs ->
  shr_m (fst (shr mrs e n)) = Z.shiftr (shr_m mrs) (Z.max n 0)
  /\ snd (shr mrs e n) = e + Z.max n 0.
Proof.
  intros Hm. destruct n as [|p|p]; cbn [shr fst snd].
  - rewrite Z.shiftr_0_r. split; [reflexivity|lia].
  - rewrite iter_pos_nat, iter_shr_1_m by exact Hm.
    rewrite positive_nat_Z. split; f_equal; lia.
  - rewrite Z.shiftr_0_r. split; [reflexivity|lia].
Qed.

Lemma shr_record_of_loc_m m l : shr_m (shr_record_of_loc m l) = m.
Proof. destruct l as [|[| |]]; reflexivity. Qed.

(** The number of binary digits. *)
Lemma Zdigits2_log2 m : 0 < m -> Zdigits2 m = Z.log2 m + 1.
Proof.
  destruct m as [|p|p]; try lia. intros _. cbn [Zdigits2].
  induction p as [p IH|p IH|]; cbn [digits2_pos]; try reflexivity.
  - rewrite Pos2Z.inj_succ, IH. destruct p; cbn; lia.
  - rewrite Pos2Z.inj_succ, IH. destruct p; cbn; lia.
Qed.

Lemma Zdigits2_nonneg m : 0 <= m -> 0 <= Zdigits2 m.
Proof. destruct m; cbn; lia. Qed.

Lemma Zdigits2_pos m : 0 < m -> 0 < Zdigits2 m.
Proof. destruct m; cbn; lia. Qed.

Lemma Zdigits2_shiftr m n :
  0 <= m -> 0 <= n -> Zdigits2 (Z.shiftr m n) = Z.max (Zdigits2 m - n) 0.
Proof.
  intros Hm Hn. destruct (Z.eq_dec m 0) as [->|Hm0].
  - rewrite Z.shiftr_0_l. cbn. lia.
  - assert (0 < m) as Hpos by lia.
    rewrite (Zdigits2_log2 m Hpos).
    destruct (Z.le_gt_cases n (Z.log2 m)) as [Hle|Hgt].
    + assert (0 < Z.shiftr m n).
      { rewrite Z.shiftr_div_pow2 by lia.
        apply Z.div_str_pos. split; [apply Z.pow_pos_nonneg; lia|].
        etransitivity; [apply Z.pow_le_mono_r; [lia|exact Hle]|].
        apply Z.log2_spec. exact Hpos. }
      rewrite Zdigits2_log2, Z.log2_shiftr by assumption. lia.
    + rewrite (Z.shiftr_eq_0 m n) by lia. cbn. lia.
Qed.

Lemma Zdigits2_shiftl m n :
  0 < m -> 0 <= n -> Zdigits2 (Z.shiftl m n) = Zdigits2 m + n.
Proof.
  intros Hm Hn. rewrite !Zdigits2_log2; try assumption.
  - rewrite Z.log2_shiftl by lia. lia.
  - rewrite Z.shiftl_mul_pow2 by lia. apply Z.mul_pos_pos; [lia|].
    apply Z.pow_pos_nonneg; lia.
Qed.

Lemma Zdigits2_le m m' : 0 <= m <= m' -> Zdigits2 m <= Zdigits2 m'.
Proof.
  intros [Hm Hle]. destruct (Z.eq_dec m 0) as [->|Hm0].
  - apply Zdigits2_nonneg. lia.
  - rewrite !Zdigits2_log2 by lia.
    pose proof (Z.log2_le_mono m m' Hle). lia.
Qed.

Lemma Zdigits2_succ m : 0 <= m -> Zdigits2 (m + 1) <= Zdigits2 m + 1.
Proof.
  intros Hm. destruct (Z.eq_dec m 0) as [->|Hm0]; [compute; discriminate|].
  rewrite !Zdigits2_log2 by lia.
  pose proof (Z.log2_succ_le m). unfold Z.succ in *. lia.
Qed.

Lemma Zdigits2_zero m : 0 <= m -> Zdigits2 m = 0 -> m = 0.
Proof. destruct m; cbn; lia. Qed.

Lemma round_nearest_even_bounds m l :
  m <= round_nearest_even m l <= m + 1.
Proof.
  destruct l as [|[| |]]; cbn [round_nearest_even]; try lia.
  destruct (Z.even m); lia.
Qed.

Lemma fexp_eq k : fexp prec emax k = Z.max (k - 53) (-1074).
Proof. reflexivity. Qed.

(** Where rounding can end: never in a NaN; in an infinity only from an
    exponent at the top of the range; in a number whose exponent is at
    least the one the format assigns to the magnitude; and not in zero
    when the input is positive with an exponent in range. *)
Lemma binary_round_aux_cases sx mx ex lx :
  0 <= mx ->
  match binary_round_aux prec emax sx mx ex lx with
  | S754_zero s => s = sx /\ ~ (0 < mx /\ -1074 <= ex)
  | S754_infinity s =>
      s = sx /\ 971 <= Z.max ex (fexp prec emax (Zdigits2 mx + ex))
  | S754_finite s m e => s = sx /\ fexp prec emax (Zdigits2 mx + ex) <= e
  | S754_nan => False
  end.
Proof.
  intros Hmx. unfold binary_round_aux, shr_fexp.
  pose proof (shr_spec (shr_record_of_loc mx lx) ex
                (fexp prec emax (Zdigits2 mx + ex) - ex)) as H1.
  rewrite shr_record_of_loc_m in H1. specialize (H1 Hmx).
  destruct (shr (shr_record_of_loc mx lx) ex _) as [mrs1 e1].
  cbn [fst snd] in H1. destruct H1 as [Hm1 He1].
  set (m2 := round_nearest_even (shr_m mrs1) (loc_of_shr_record mrs1)).
  pose proof (round_nearest_even_bounds (shr_m mrs1) (loc_of_shr_record mrs1))
    as Hm2. fold m2 in Hm2.
  assert (Hm1nn : 0 <= shr_m mrs1)
    by (rewrite Hm1; apply Z.shiftr_nonneg; exact Hmx).
  pose proof (shr_spec (shr_record_of_loc m2 loc_Exact) e1
                (fexp prec emax (Zdigits2 m2 + e1) - e1)) as H2.
  rewrite shr_record_of_loc_m in H2. specialize (H2 ltac:(lia)).
  destruct (shr (shr_record_of_loc m2 loc_Exact) e1 _) as [mrs2 e2].
  cbn [fst snd] in H2. destruct H2 as [Hm3 He2].
  assert (Hm3nn : 0 <= shr_m mrs2)
    by (rewrite Hm3; apply Z.shiftr_nonneg; lia).
  pose proof (Zdigits2_shiftr mx (Z.max (fexp prec emax (Zdigits2 mx + ex) - ex) 0)
                Hmx ltac:(lia)) as Hd1.
  rewrite <- Hm1 in Hd1.
  pose proof (Zdigits2_shiftr m2 (Z.max (fexp prec emax (Zdigits2 m2 + e1) - e1) 0)
                ltac:(lia) ltac:(lia)) as Hd3.
  rewrite <- Hm3 in Hd3.
  pose proof (Zdigits2_le (shr_m mrs1) m2 ltac:(lia)) as Hd2lo.
  pose proof (Zdigits2_le m2 (shr_m mrs1 + 1) ltac:(lia)) as Hd2hi.
  pose proof (Zdigits2_succ (shr_m mrs1) Hm1nn) as Hsucc.
  pose proof (Zdigits2_nonneg mx Hmx) as Hdnn.
  rewrite !fexp_eq in *.
  destruct (shr_m mrs2) as [|m3|m3] eqn:Hm3v.
  - split; [reflexivity|]. intros [Hpos Hex].
    pose proof (Zdigits2_pos mx Hpos). cbn [Zdigits2] in Hd3. lia.
  - destruct (e2 <=? emax - prec) eqn:Hov.
    + split; [reflexivity|]. lia.
    + split; [reflexivity|]. apply Z.leb_gt in Hov.
      change (emax - prec) with 971 in Hov. lia.
  - lia.
Qed.

Lemma SFcompare_refl_finite s m e :
  SFcompare (S754_finite s m e) (S754_finite s m e) = Some Eq.
Proof.
  cbn [SFcompare]. rewrite Z.compare_refl, Pos.compare_cont_refl.
  destruct s; reflexivity.
Qed.

Lemma is_finite_spec x : is_finite x = SF_is_finite (Prim2SF x).
Proof.
  unfold is_finite, is_nan, is_infinity.
  rewrite !FloatAxioms.eqb_spec, abs_spec.
  change (Prim2SF infinity) with (S754_infinity false).
  unfold SFeqb.
  destruct (Prim2SF x) as [s|s| |s m e]; cbn [SFabs SF_is_finite].
  - reflexivity.
  - destruct s; reflexivity.
  - reflexivity.
  - rewrite SFcompare_refl_finite. reflexivity.
Qed.

Lemma shl_align_spec mx ex ex' :
  Z.pos (fst (shl_align mx ex ex')) = Z.shiftl (Z.pos mx) (ex - Z.min ex ex')
  /\ snd (shl_align mx ex ex') = Z.min ex ex'.
Proof.
  unfold shl_align. destruct (ex' - ex) as [|d|d] eqn:Hd; cbn [fst snd].
  - replace (ex - Z.min ex ex') with 0 by lia.
    rewrite Z.shiftl_0_r. split; [reflexivity|lia].
  - replace (ex - Z.min ex ex') with 0 by lia.
    rewrite Z.shiftl_0_r. split; [reflexivity|lia].
  - replace (ex - Z.min ex ex') with (Z.pos d) by lia.
    split; [|lia]. cbn [Z.shiftl].
    apply (Pos.iter_swap_gen _ _ Z.pos xO (Z.mul 2)). reflexivity.
Qed.

Lemma binary_round_cases sx mx ex :
  match binary_round prec emax sx mx ex with
  | S754_zero s => s = sx /\ ex < -1074
  | S754_infinity s => s = sx /\ 971 <= fexp prec emax (Zdigits2 (Z.pos mx) + ex)
  | S754_finite s m e => s = sx /\ fexp prec emax (Zdigits2 (Z.pos mx) + ex) <= e
  | S754_nan => False
  end.
Proof.
  unfold binary_round.
  change (Z.pos (digits2_pos mx)) with (Zdigits2 (Z.pos mx)).
  pose proof (shl_align_spec mx ex (fexp prec emax (Zdigits2 (Z.pos mx) + ex)))
    as [Hmz Hez].
  destruct (shl_align mx ex _) as [mz ez]. cbn [fst snd] in Hmz, Hez.
  assert (Hd : Zdigits2 (Z.pos mz) + ez = Zdigits2 (Z.pos mx) + ex).
  { rewrite Hmz, Zdigits2_shiftl by lia. lia. }
  pose proof (binary_round_aux_cases sx (Z.pos mz) ez loc_Exact ltac:(lia))
    as Hcases.
  rewrite Hd in Hcases. rewrite fexp_eq in *.
  destruct (binary_round_aux prec emax sx (Z.pos mz) ez loc_Exact);
    cbv beta iota in Hcases; try contradiction;
    destruct Hcases as [-> Hcases]; (split; [reflexivity|lia]).
Qed.

Lemma binary_normalize_cases m e :
  0 <= m ->
  match binary_normalize prec emax m e false with
  | S754_zero s => s = false /\ (m = 0 \/ e < -1074)
  | S754_infinity s => s = false /\ 971 <= fexp prec emax (Zdigits2 m + e)
  | S754_finite s m' e' => s = false /\ fexp prec emax (Zdigits2 m + e) <= e'
  | S754_nan => False
  end.
Proof.
  intros Hm. destruct m as [|p|p]; cbn [binary_normalize]; [lia| |lia].
  pose proof (binary_round_cases false p e) as Hc.
  destruct (binary_round prec emax false p e); cbv beta iota in Hc;
    try contradiction; destruct Hc as [-> Hc]; (split; [reflexivity|lia]).
Qed.

Lemma float_of_int_finite z : is_finite (float_of_int z) = true.
Proof.
  unfold float_of_int. rewrite is_finite_spec, of_uint63_spec.
  pose proof (Uint63.to_Z_bounded (Uint63.of_Z z)) as Hb.
  change wB with (2 ^ 63) in Hb.
  pose proof (binary_normalize_cases (Uint63.to_Z (Uint63.of_Z z)) 0
                ltac:(lia)) as Hc.
  pose proof (Zdigits2_le (Uint63.to_Z (Uint63.of_Z z)) (2 ^ 63 - 1)
                ltac:(lia)) as Hd.
  change (Zdigits2 (2 ^ 63 - 1)) with 63 in Hd. rewrite fexp_eq in Hc.
  destruct (binary_normalize prec emax _ 0 false); try reflexivity;
    cbv beta iota in Hc; try contradiction; destruct Hc as [_ Hc]; lia.
Qed.

(** Adding 0.001 to a finite float that is at least zero gives plus
    infinity or a positive number with exponent at least -62. *)
Lemma add_epsilon_cases (x : float) :
  is_finite x = true -> (0 <=? x)%float = true ->
  match Prim2SF (x + 0.001)%float with
  | S754_infinity s => s = false
  | S754_finite s m e => s = false /\ -62 <= e
  | _ => False
  end.
Proof.
  rewrite is_finite_spec, FloatAxioms.leb_spec, FloatAxioms.add_spec.
  change (Prim2SF 0) with (S754_zero false).
  change (Prim2SF 0.001) with (S754_finite false 4611686018427388 (-62)).
  pose proof (Prim2SF_valid x) as Hvalid.
  destruct (Prim2SF x) as [s|s| |s mx ex]; try discriminate.
  - intros _ _. cbn. split; [reflexivity|lia].
  - intros _ Hle. destruct s; [discriminate Hle|].
    cbn [valid_binary] in Hvalid. unfold bounded, canonical_mantissa in Hvalid.
    apply andb_true_iff in Hvalid. destruct Hvalid as [Hcanon _].
    apply Z.eqb_eq in Hcanon. rewrite fexp_eq in Hcanon.
    unfold SF64add, SFadd. cbn [cond_Zopp].
    set (ez := Z.min ex (-62)).
    pose proof (shl_align_spec mx ex ez) as [Hm1 _].
    pose proof (shl_align_spec 4611686018427388 (-62) ez) as [Hm2 _].
    set (M := Z.pos (fst (shl_align mx ex ez))
              + Z.pos (fst (shl_align 4611686018427388 (-62) ez))).
    replace (Z.min (-62) ez) with ez in Hm2 by (subst ez; lia).
    assert (HM : Z.shiftl 4611686018427388 (-62 - ez) <= M).
    { subst M. rewrite <- Hm2. lia. }
    assert (Hdig : 53 + (-62 - ez) <= Zdigits2 M).
    { assert (H0 : 0 <= Z.shiftl 4611686018427388 (-62 - ez))
        by (rewrite <- Hm2; lia).
      pose proof (Zdigits2_le _ M (conj H0 HM)) as Hle'.
      rewrite Zdigits2_shiftl in Hle' by (subst ez; lia).
      change (Zdigits2 4611686018427388) with 53 in Hle'. exact Hle'. }
    pose proof (binary_normalize_cases M ez ltac:(lia)) as Hc.
    rewrite fexp_eq in Hc.
    destruct (binary_normalize prec emax M ez false) as [s'|s'| |s' m' e'];
      cbv beta iota in Hc; try contradiction; destruct Hc as [-> Hc];
      subst ez; try (split; [reflexivity|]); try reflexivity; lia.
Qed.

(** Dividing 1 by plus infinity or by a positive number with exponent at
    least -62 is a division by a nonzero float with a finite result. *)
Lemma div_one_finite (y : float) :
  match Prim2SF y with
  | S754_infinity s => s = false
  | S754_finite s m e => s = false /\ -62 <= e
  | _ => False
  end ->
  (y =? 0)%float = false /\ is_finite (1 / y)%float = true.
Proof.
  rewrite FloatAxioms.eqb_spec, is_finite_spec, FloatAxioms.div_spec.
  change (Prim2SF 0) with (S754_zero false).
  change (Prim2SF 1) with (S754_finite false 4503599627370496 (-52)).
  destruct (Prim2SF y) as [s|s| |s m e]; try contradiction.
  - intros ->. split; reflexivity.
  - intros [-> He]. split; [reflexivity|].
    unfold SF64div, SFdiv, SFdiv_core_binary.
    change (Zdigits2 4503599627370496) with 53.
    pose proof (Zdigits2_pos (Z.pos m) ltac:(lia)) as Hd2.
    set (d2 := Zdigits2 (Z.pos m)) in *.
    set (e' := Z.min (fexp prec emax (53 + -52 - (d2 + e))) (-52 - e)).
    set (s := -52 - e - e').
    set (m' := match s with
               | Z.pos _ => Z.shiftl 4503599627370496 s
               | 0 => 4503599627370496
               | Z.neg _ => 0
               end).
    assert (Hs : 0 <= s) by (subst s e'; lia).
    assert (Hm' : 0 <= m' /\ Zdigits2 m' <= 53 + s).
    { subst m'. destruct s as [|p|p] eqn:Hsv.
      - split; [lia|]. change (Zdigits2 4503599627370496) with 53. lia.
      - rewrite Zdigits2_shiftl by lia.
        change (Zdigits2 4503599627370496) with 53. split; [|lia].
        rewrite Z.shiftl_mul_pow2 by lia.
        apply Z.mul_nonneg_nonneg; [lia|]. apply Z.pow_nonneg. lia.
      - lia. }
    destruct Hm' as [Hm'nn Hm'd].
    destruct (Z.div_eucl m' (Z.pos m)) as [q r] eqn:Hdiv.
    assert (Hq : q = m' / Z.pos m) by (unfold Z.div; rewrite Hdiv; reflexivity).
    assert (Hqnn : 0 <= q) by (rewrite Hq; apply Z.div_pos; lia).
    assert (Hqle : q <= m').
    { rewrite Hq. apply Z.div_le_upper_bound; [lia|]. nia. }
    pose proof (Zdigits2_le q m' (conj Hqnn Hqle)) as Hdq.
    pose proof (binary_round_aux_cases (xorb false false) q e'
                  (new_location (Z.pos m) r) Hqnn) as Hc.
    rewrite fexp_eq in Hc.
    destruct (binary_round_aux prec emax (xorb false false) q e' _);
      cbv beta iota in Hc; try contradiction; try reflexivity.
    destruct Hc as [_ Hc]. subst s e'. rewrite fexp_eq in *. lia.
Qed.

(** ** Feature extraction *)

Lemma extract_features_eq (topic : pystr) (payload_length : Z)
    (time_delta : float) :
  extract_features topic payload_length time_delta
  = if (time_delta + 0.001 =? 0)%float
    then Raise ZeroDivisionError
    else Return [[ float_of_int payload_length;
                   time_delta;
                   float_of_int (Z.of_nat (length topic));
                   (1 / (time_delta + 0.001))%float;
                   float_of_int payload_length ]].
Proof.
  unfold extract_features, truediv.
  destruct (time_delta + 0.001 =? 0)%float; [reflexivity|].
  cbn [bind]. unfold getitem.
  repeat (rewrite ?lookup_insert_eq;
          try (rewrite lookup_insert_ne by discriminate)).
  reflexivity.
Qed.

(** C7, as the code has it. The feature order: whenever time delta
    + 0.001 is not zero, extraction gives one row of exactly five
    features, in the order payload length, time delta, topic length,
    1 / (time delta + 0.001), payload length. *)
Theorem feature_order (topic : pystr) (payload_length : Z) (time_delta : float) :
  (time_delta + 0.001 =? 0)%float = false ->
  extract_features topic payload_length time_delta
  = Return [[ float_of_int payload_length;
              time_delta;
              float_of_int (Z.of_nat (length topic));
              (1 / (time_delta + 0.001))%float;
              float_of_int payload_length ]]
  /\ (exists row,
        extract_features topic payload_length time_delta = Return [row]
        /\ length row = 5%nat
        /\ row !! 0%nat = Some (float_of_int payload_length)
        /\ row !! 1%nat = Some time_delta
        /\ row !! 2%nat = Some (float_of_int (Z.of_nat (length topic)))
        /\ row !! 3%nat = Some (1 / (time_delta + 0.001))%float
        /\ row !! 4%nat = Some (float_of_int payload_length)).
Proof.
  intros Hnz. rewrite extract_features_eq, Hnz.
  split; [reflexivity|].
  eexists. split; [reflexivity|]. repeat split.
Qed.

Lemma feature_order_witness :
  extract_features sample_topic 64 0%float
  = Return [[ float_of_int 64;
              0%float;
              float_of_int (Z.of_nat (length sample_topic));
              (1 / (0 + 0.001))%float;
              float_of_int 64 ]]
  /\ (exists row,
        extract_features sample_topic 64 0%float = Return [row]
        /\ length row = 5%nat
        /\ row !! 0%nat = Some (float_of_int 64)
        /\ row !! 1%nat = Some 0%float
        /\ row !! 2%nat = Some (float_of_int (Z.of_nat (length sample_topic)))
        /\ row !! 3%nat = Some (1 / (0 + 0.001))%float
        /\ row !! 4%nat = Some (float_of_int 64)).
Proof.
  apply (feature_order sample_topic 64 0%float). reflexivity.
Defined.

(** C7, as stated, fails for the time delta -0.001: the divisor
    -0.001 + 0.001 is zero, the division raises [ZeroDivisionError], and
    no feature vector is returned. *)
Lemma extract_features_minus_epsilon :
  extract_features sample_topic 64 (-0.001)%float = Raise ZeroDivisionError
  /\ extract_features sample_topic 64 (-0.001)%float
     <> Return [[ float_of_int 64;
                  (-0.001)%float;
                  float_of_int (Z.of_nat (length sample_topic));
                  (1 / (-0.001 + 0.001))%float;
                  float_of_int 64 ]].
Proof.
  assert (H : extract_features sample_topic 64 (-0.001)%float
              = Raise ZeroDivisionError).
  { rewrite extract_features_eq. reflexivity. }
  split; [exact H|]. rewrite H. discriminate.
Qed.

(** C8, as the code has it. Feature finiteness: for a payload length
    in the range of [len] and a finite time delta that is at least zero,
    zero included, extraction raises nothing and each of the five
    features is a finite float, neither NaN nor infinite. Nothing but
    the added 0.001 keeps the divisor from zero: for the time delta
    -0.001 the division raises [ZeroDivisionError]. *)
Theorem features_finite (topic : pystr) (payload_length : Z)
    (time_delta : float) :
  0 <= payload_length < 2 ^ 63 ->
  is_finite time_delta = true ->
  (0 <=? time_delta)%float = true ->
  (exists row,
     extract_features topic payload_length time_delta = Return [row]
     /\ length row = 5%nat
     /\ Forall (fun x => is_finite x = true) row)
  /\ extract_features topic payload_length (-0.001)%float
     = Raise ZeroDivisionError.
Proof.
  intros _ Hfin Hge. split; [|rewrite extract_features_eq; reflexivity].
  destruct (div_one_finite _ (add_epsilon_cases time_delta Hfin Hge))
    as [Hnz Hdiv].
  rewrite extract_features_eq, Hnz. eexists. split; [reflexivity|].
  split; [reflexivity|].
  repeat constructor; try apply float_of_int_finite; assumption.
Qed.

Lemma features_finite_witness :
  (exists row,
     extract_features sample_topic 64 0%float = Return [row]
     /\ length row = 5%nat
     /\ Forall (fun x => is_finite x = true) row)
  /\ extract_features sample_topic 64 (-0.001)%float
     = Raise ZeroDivisionError.
Proof.
  apply (features_finite sample_topic 64 0%float);
    [split; [discriminate|reflexivity]|reflexivity|reflexivity].
Defined.

(** C8, as stated, fails for the time delta plus infinity, which is at
    least zero: extraction returns, and the second feature is the
    infinite time delta itself. *)
Lemma features_infinite_at_infinity :
  (0 <=? infinity)%float = true
  /\ extract_features sample_topic 64 infinity
     = Return [[ float_of_int 64; infinity; float_of_int 1; 0%float;
                 float_of_int 64 ]]
  /\ ~ Forall (fun x => is_finite x = true)
         [ float_of_int 64; infinity; float_of_int 1; 0%float;
           float_of_int 64 ].
Proof.
  split; [reflexivity|]. split.
  - rewrite extract_features_eq. reflexivity.
  - intros Hall. inversion Hall as [|? ? _ Hrest]; subst.
    inversion Hrest as [|? ? Hinf _]; subst. discriminate Hinf.
Qed.

(** ** Detection *)

(** C3. The detection decision: when the loaded classifier answers
    [label] with probability [confidence], the message is an attack
    exactly if the label is 1 and the confidence is at least the
    threshold, 0.5; so a confidence equal to the threshold gives an
    attack, and one strictly below it does not. For a message with
    these features the attacks-detected counter moves accordingly. *)
Theorem detection_decision_rule (d : detector) (e : env) (msg : message)
    (st : ids_state) (features : list (list float)) (label : Z)
    (confidence : float) :
  classifies d features label confidence ->
  DETECTION_THRESHOLD = 0.5%float
  /\ detect_intrusion d features
     = ((label =? 1) && (DETECTION_THRESHOLD <=? confidence)%float, confidence)
  /\ (fst (detect_intrusion d features) = true
      <-> label = 1 /\ (DETECTION_THRESHOLD <=? confidence)%float = true)
  /\ (label = 1 -> confidence = DETECTION_THRESHOLD ->
      fst (detect_intrusion d features) = true)
  /\ ((confidence <? DETECTION_THRESHOLD)%float = true ->
      fst (detect_intrusion d features) = false)
  /\ (features_of e msg st = Return features ->
      attacks_detected (on_message d e msg st)
      = attacks_detected st
        + (if (label =? 1) && (DETECTION_THRESHOLD <=? confidence)%float
           then 1 else 0)).
Proof.
  intros (m & scaled & predictions & probs & probabilities
          & Hm & Hs & Hp & Hl & Hpp & Hrow & Hc).
  assert (Hd : detect_intrusion d features
               = ((label =? 1) && (DETECTION_THRESHOLD <=? confidence)%float,
                  confidence)).
  { unfold detect_intrusion, detect_intrusion_try. rewrite Hm, Hs.
    cbn [bind]. rewrite Hp. cbn [bind]. rewrite Hl. cbn [bind].
    unfold confidence_of. rewrite Hpp. cbn [bind]. rewrite Hrow.
    cbn [bind]. rewrite Hc. reflexivity. }
  split; [reflexivity|]. split; [exact Hd|]. rewrite Hd. cbn [fst].
  split; [|split; [|split]].
  - rewrite andb_true_iff, Z.eqb_eq. reflexivity.
  - intros -> ->. reflexivity.
  - intros Hlt. rewrite (ltb_not_geb _ _ Hlt). apply andb_false_r.
  - intros Hf.
    rewrite (on_message_attacks_detected d e msg st features Hf), Hd.
    reflexivity.
Qed.

Lemma detection_decision_rule_witness :
  let d := {| ml_model := Some (constant_classifier 1 0.5%float);
              scaler := None |} in
  let msg := {| msg_topic := sample_topic; msg_payload := [] |} in
  let features := [[ float_of_int 0; 0%float; float_of_int 1; 1000%float;
                     float_of_int 0 ]] in
  features_of (env_at 1%float) msg initial_state = Return features
  /\ detect_intrusion d features = (true, 0.5%float)
  /\ attacks_detected (on_message d (env_at 1%float) msg initial_state)
     = attacks_detected initial_state + 1.
Proof.
  cbv zeta.
  assert (Hf : features_of (env_at 1%float)
                 {| msg_topic := sample_topic; msg_payload := [] |}
                 initial_state
               = Return [[ float_of_int 0; 0%float; float_of_int 1;
                           1000%float; float_of_int 0 ]]).
  { unfold features_of. rewrite extract_features_eq. reflexivity. }
  destruct (detection_decision_rule
              {| ml_model := Some (constant_classifier 1 0.5%float);
                 scaler := None |}
              (env_at 1%float)
              {| msg_topic := sample_topic; msg_payload := [] |}
              initial_state
              [[ float_of_int 0; 0%float; float_of_int 1; 1000%float;
                 float_of_int 0 ]]
              1 0.5%float)
    as (_ & Hd & _ & _ & _ & Hcount).
  { exists (constant_classifier 1 0.5%float),
      [[ float_of_int 0; 0%float; float_of_int 1; 1000%float;
         float_of_int 0 ]],
      [1], [[0.5%float; 0.5%float]], [0.5%float; 0.5%float].
    repeat split; reflexivity. }
  split; [exact Hf|]. split; [exact Hd|]. exact (Hcount Hf).
Defined.

(** C4. Fail-open on a missing classifier: with no model loaded,
    [detect_intrusion] answers [(False, 0.0)] on every feature vector,
    and the attacks-detected counter is still 0 after any run. *)
Theorem fail_open_without_classifier (d : detector) :
  ml_model d = None ->
  (forall features, detect_intrusion d features = (false, 0%float))
  /\ (forall events, attacks_detected (ingest d events initial_state) = 0).
Proof.
  intros Hnone. split.
  - intros features. unfold detect_intrusion. rewrite Hnone. reflexivity.
  - intros events.
    apply (fold_left_preserves _ (fun st => attacks_detected st = 0)).
    + intros st [e msg] Hst. cbn [fst snd].
      rewrite on_message_attacks_detected_no_model; assumption.
    + reflexivity.
Qed.

Lemma fail_open_without_classifier_witness :
  (forall features, detect_intrusion no_detector features = (false, 0%float))
  /\ (forall events,
        attacks_detected (ingest no_detector events initial_state) = 0).
Proof.
  apply (fail_open_without_classifier no_detector). reflexivity.
Defined.

(** ** Enforcement *)

(** C9. Enforcement is unreachable from the ingest loop:
    [extract_source_ip] answers [None] for every message, so after any
    run the blocked set is empty, the blocked counter is 0 and no
    firewall command was run, although auto-blocking is enabled; a
    message detected as an attack is still counted and logged, with no
    source address. *)
Theorem enforcement_unreachable (d : detector) (events : list (env * message)) :
  (forall msg, extract_source_ip msg = None)
  /\ ENABLE_AUTO_BLOCK = true
  /\ (let st := ingest d events initial_state in
      blocked_ips st = ∅ /\ ips_blocked st = 0 /\ commands_run st = []
      /\ Forall (fun entry => log_source_ip entry = None) (attack_log st))
  /\ (forall e msg st f c,
        features_of e msg st = Return f ->
        detect_intrusion d f = (true, c) ->
        attacks_detected (on_message d e msg st) = attacks_detected st + 1
        /\ (env_log_ok e = true ->
            exists entry,
              attack_log (on_message d e msg st) = attack_log st ++ [entry]
              /\ log_source_ip entry = None)).
Proof.
  split; [reflexivity|]. split; [reflexivity|]. split.
  - cbn zeta.
    apply (fold_left_preserves _
             (fun st => blocked_ips st = ∅ /\ ips_blocked st = 0
                        /\ commands_run st = []
                        /\ Forall (fun entry => log_source_ip entry = None)
                                  (attack_log st))).
    + intros st [e msg] (Hb & Hc & Hr & Hl). cbn [fst snd].
      rewrite on_message_blocked_ips, on_message_ips_blocked,
        on_message_commands_run.
      destruct (on_message_attack_log d e msg st) as (new & -> & Hnew).
      repeat split; try assumption. apply Forall_app; split; assumption.
    + repeat split. constructor.
  - intros e msg st f c Hf Hd. split.
    + rewrite (on_message_attacks_detected d e msg st f Hf), Hd. reflexivity.
    + intros Hok. eexists. split.
      * apply (on_message_logs_attack d e msg st f c Hf Hd Hok).
      * reflexivity.
Qed.

Lemma block_ip_already_blocked run ip st :
  ip ∈ blocked_ips st -> block_ip run ip st = st.
Proof.
  intros Hin. unfold block_ip. rewrite bool_decide_eq_true_2 by assumption.
  reflexivity.
Qed.

Lemma block_ip_success ip st :
  ip ∉ blocked_ips st ->
  block_ip (Return 0) ip st
  = incr_ips_blocked
      (set_blocked_ips (union {[ ip ]}) (record_command (Deny ip) st)).
Proof.
  intros Hnot. unfold block_ip. rewrite bool_decide_eq_false_2 by assumption.
  reflexivity.
Qed.

(** C5, as the code has it. Blocking an address that is already in the
    blocked set changes nothing. For an address that is not blocked
    yet: when the deny command of the first call succeeds, two calls in
    a row leave it in the set once, with the counter raised by one and
    one deny command run; when it fails, by a non-zero exit code or an
    exception, the address stays unblocked and uncounted, and the
    second call runs the deny command again. *)
Theorem block_idempotent_after_success (failed run2 : outcome Z) (ip : pystr)
    (st : ids_state) :
  ip ∉ blocked_ips st ->
  failed <> Return 0 ->
  (forall run st', ip ∈ blocked_ips st' -> block_ip run ip st' = st')
  /\ block_twice (Return 0) run2 ip st = block_ip (Return 0) ip st
  /\ blocked_exactly_once (Return 0) run2 ip st
  /\ size (blocked_ips (block_twice (Return 0) run2 ip st))
     = S (size (blocked_ips st))
  /\ (ip ∉ blocked_ips (block_ip failed ip st))
  /\ ips_blocked (block_ip failed ip st) = ips_blocked st
  /\ commands_run (block_ip failed ip st) = commands_run st ++ [Deny ip]
  /\ commands_run (block_twice failed run2 ip st)
     = commands_run st ++ [Deny ip; Deny ip]
  /\ (run2 = Return 0 ->
      ip ∈ blocked_ips (block_twice failed run2 ip st)
      /\ ips_blocked (block_twice failed run2 ip st) = ips_blocked st + 1).
Proof.
  intros Hnot Hfail.
  split; [intros; apply block_ip_already_blocked; assumption|].
  assert (Hok : block_twice (Return 0) run2 ip st = block_ip (Return 0) ip st).
  { unfold block_twice. rewrite (block_ip_success ip st Hnot).
    apply block_ip_already_blocked. cbn.
    apply elem_of_union. left. apply elem_of_singleton. reflexivity. }
  split; [exact Hok|].
  split.
  { unfold blocked_exactly_once. cbn zeta.
    rewrite Hok, (block_ip_success ip st Hnot). cbn. repeat split.
    apply elem_of_union. left. apply elem_of_singleton. reflexivity. }
  split.
  { rewrite Hok, (block_ip_success ip st Hnot). cbn.
    rewrite size_union.
    - rewrite size_singleton. reflexivity.
    - intros x Hx Hin. apply elem_of_singleton in Hx. subst x. contradiction. }
  assert (Hfailed : block_ip failed ip st = record_command (Deny ip) st).
  { unfold block_ip. rewrite bool_decide_eq_false_2 by exact Hnot.
    destruct failed as [rc|ex]; [|reflexivity].
    destruct (rc =? 0) eqn:Hrc; [|reflexivity].
    apply Z.eqb_eq in Hrc. subst rc. contradiction Hfail. reflexivity. }
  unfold block_twice. rewrite Hfailed. cbn [record_command blocked_ips
    ips_blocked commands_run].
  split; [exact Hnot|]. split; [reflexivity|]. split; [reflexivity|].
  unfold block_ip. cbn [record_command blocked_ips].
  rewrite bool_decide_eq_false_2 by exact Hnot.
  split.
  - destruct run2 as [rc|ex]; [destruct (rc =? 0)|]; cbn;
      rewrite <- app_assoc; reflexivity.
  - intros ->. cbn. split; [|reflexivity].
    apply elem_of_union. left. apply elem_of_singleton. reflexivity.
Qed.

Lemma block_idempotent_after_success_witness :
  (forall run st', sample_ip ∈ blocked_ips st' -> block_ip run sample_ip st' = st')
  /\ block_twice (Return 0) (Return 0) sample_ip initial_state
     = block_ip (Return 0) sample_ip initial_state
  /\ blocked_exactly_once (Return 0) (Return 0) sample_ip initial_state
  /\ size (blocked_ips (block_twice (Return 0) (Return 0) sample_ip initial_state))
     = S (size (blocked_ips initial_state))
  /\ (sample_ip ∉ blocked_ips (block_ip (Return 1) sample_ip initial_state))
  /\ ips_blocked (block_ip (Return 1) sample_ip initial_state)
     = ips_blocked initial_state
  /\ commands_run (block_ip (Return 1) sample_ip initial_state)
     = commands_run initial_state ++ [Deny sample_ip]
  /\ commands_run (block_twice (Return 1) (Return 0) sample_ip initial_state)
     = commands_run initial_state ++ [Deny sample_ip; Deny sample_ip]
  /\ (Return 0 = Return 0 ->
      sample_ip ∈ blocked_ips (block_twice (Return 1) (Return 0) sample_ip
                                 initial_state)
      /\ ips_blocked (block_twice (Return 1) (Return 0) sample_ip initial_state)
         = ips_blocked initial_state + 1).
Proof.
  apply (block_idempotent_after_success (Return 1) (Return 0) sample_ip
           initial_state).
  - cbn. apply not_elem_of_empty.
  - discriminate.
Defined.

(** C5, as stated, fails when the first deny command fails: the address
    stays unblocked, and the second call runs the command again. *)
Lemma block_twice_after_failure :
  ~ blocked_exactly_once (Return 1) (Return 0) sample_ip initial_state.
Proof.
  unfold blocked_exactly_once, block_twice, block_ip. cbn.
  rewrite !bool_decide_eq_false_2 by apply not_elem_of_empty.
  cbn. intros (_ & _ & Hcmds). discriminate Hcmds.
Qed.

Lemma block_ip_counts run ip st :
  ips_blocked (block_ip run ip st) - ips_blocked st
  = Z.of_nat (size (blocked_ips (block_ip run ip st)))
    - Z.of_nat (size (blocked_ips st)).
Proof.
  unfold block_ip. case_bool_decide as Hin; [lia|].
  destruct run as [rc|]; [|cbn; lia].
  destruct (rc =? 0); cbn; [|lia].
  rewrite size_union by set_solver. rewrite size_singleton. lia.
Qed.

Lemma unblock_ip_ips_blocked run ip st :
  ips_blocked (unblock_ip run ip st) = ips_blocked st.
Proof.
  unfold unblock_ip. destruct run as [rc|]; [destruct (rc =? 0)|]; reflexivity.
Qed.

Lemma unblock_ip_size run ip st :
  (size (blocked_ips (unblock_ip run ip st)) <= size (blocked_ips st))%nat.
Proof.
  unfold unblock_ip. destruct run as [rc|]; [destruct (rc =? 0)|]; cbn;
    try lia.
  apply subseteq_size, subseteq_difference_l. reflexivity.
Qed.

Lemma step_keeps_count_bound d st a :
  Z.of_nat (size (blocked_ips st)) <= ips_blocked st ->
  Z.of_nat (size (blocked_ips (step d st a))) <= ips_blocked (step d st a).
Proof.
  intros Hle. destruct a as [e msg|run ip|run ip]; cbn [step].
  - rewrite on_message_blocked_ips, on_message_ips_blocked. exact Hle.
  - pose proof (block_ip_counts run ip st). lia.
  - pose proof (unblock_ip_size run ip st).
    rewrite unblock_ip_ips_blocked. lia.
Qed.

Lemma step_ips_blocked_mono d st a :
  ips_blocked st <= ips_blocked (step d st a).
Proof.
  destruct a as [e msg|run ip|run ip]; cbn [step].
  - rewrite on_message_ips_blocked. lia.
  - unfold block_ip. case_bool_decide; [lia|].
    destruct run as [rc|]; [destruct (rc =? 0)|]; cbn; lia.
  - rewrite unblock_ip_ips_blocked. lia.
Qed.

(** C10, as the code has it. The blocked counter counts the block
    actions that added an address and never goes down: every step leaves
    it at least as large, [block_ip] raises it by exactly the growth of
    the blocked set, and [unblock_ip] leaves it alone. Hence in every
    reachable state the blocked set is no larger than the counter, and
    it is strictly smaller after a successful unblock of an address that
    was in the set. *)
Theorem blocked_count_monotone (d : detector) (st : ids_state) (a : action)
    (run : outcome Z) (ip : pystr) :
  reachable d st ->
  Z.of_nat (size (blocked_ips st)) <= ips_blocked st
  /\ ips_blocked st <= ips_blocked (step d st a)
  /\ ips_blocked (block_ip run ip st) - ips_blocked st
     = Z.of_nat (size (blocked_ips (block_ip run ip st)))
       - Z.of_nat (size (blocked_ips st))
  /\ ips_blocked (unblock_ip run ip st) = ips_blocked st
  /\ (ip ∈ blocked_ips st ->
      (ip ∉ blocked_ips (unblock_ip (Return 0) ip st))
      /\ strict_after_unblock (Return 0) ip st).
Proof.
  intros [actions ->].
  assert (Hinv : Z.of_nat (size (blocked_ips (fold_left (step d) actions initial_state)))
                 <= ips_blocked (fold_left (step d) actions initial_state)).
  { apply (fold_left_preserves (step d)
             (fun s => Z.of_nat (size (blocked_ips s)) <= ips_blocked s)).
    - intros s b. apply step_keeps_count_bound.
    - cbn. rewrite size_empty. lia. }
  set (st := fold_left (step d) actions initial_state) in *.
  split; [exact Hinv|].
  split; [apply step_ips_blocked_mono|].
  split; [apply block_ip_counts|].
  split; [apply unblock_ip_ips_blocked|].
  intros Hin. unfold strict_after_unblock. cbn. split.
  { rewrite elem_of_difference, elem_of_singleton. intros [_ Hne].
    apply Hne. reflexivity. }
  assert (size (blocked_ips st ∖ {[ip]}) < size (blocked_ips st))%nat.
  { apply subset_size, subset_difference_elem_of. exact Hin. }
  lia.
Qed.

Lemma blocked_count_monotone_witness :
  let st := step no_detector initial_state (Block (Return 0) sample_ip) in
  Z.of_nat (size (blocked_ips st)) <= ips_blocked st
  /\ ips_blocked st
     <= ips_blocked (step no_detector st (Unblock (Return 0) sample_ip))
  /\ ips_blocked (block_ip (Return 0) sample_ip st) - ips_blocked st
     = Z.of_nat (size (blocked_ips (block_ip (Return 0) sample_ip st)))
       - Z.of_nat (size (blocked_ips st))
  /\ ips_blocked (unblock_ip (Return 0) sample_ip st) = ips_blocked st
  /\ (sample_ip ∈ blocked_ips st ->
      (sample_ip ∉ blocked_ips (unblock_ip (Return 0) sample_ip st))
      /\ strict_after_unblock (Return 0) sample_ip st).
Proof.
  apply (blocked_count_monotone no_detector
           (step no_detector initial_state (Block (Return 0) sample_ip))
           (Unblock (Return 0) sample_ip) (Return 0) sample_ip).
  exists [Block (Return 0) sample_ip]. reflexivity.
Defined.

(** C10, as stated, fails for an unblock that succeeds on an address the
    set does not hold (a rule left in the firewall by an earlier run):
    in the initial state, which is reachable, the set and the counter
    are both 0 afterwards. *)
Lemma unblock_unknown_address_not_strict :
  reachable no_detector initial_state
  /\ ~ strict_after_unblock (Return 0) sample_ip initial_state.
Proof.
  split; [exists []; reflexivity|].
  unfold strict_after_unblock. cbn.
  pose proof (subseteq_size (∅ ∖ {[sample_ip]}) (∅ : gset pystr)
                ltac:(apply subseteq_difference_l; reflexivity)) as Hle.
  rewrite size_empty in Hle. lia.
Qed.

#[local] Close Scope Z_scope.
#[local] Open Scope N_scope.

(** ** More on decryption and the checksum *)

Lemma calculate_crc32_hex data crc :
  calculate_crc32 data = Some crc ->
  length crc = 8%nat /\ Forall is_hex_char crc.
Proof.
  unfold calculate_crc32.
  destruct (match data with inl s => Utf8.encode s | inr b => Some b end);
    [|discriminate].
  cbn [mbind option_bind]. intros [= <-]. split.
  - apply format_08X_length, land_mask_bound.
  - apply format_08X_is_hex.
Qed.

(** X1. [calculate_crc32] answers with exactly 8 characters, each one of
    0-9 and A-F: for every [bytes] value, and for every [str] that can
    be encoded, where it is the checksum of the UTF-8 bytes; a [str]
    that cannot be encoded raises. *)
Theorem calculate_crc32_shape :
  (forall b : pybytes,
      exists crc, calculate_crc32 (inr b) = Some crc
                  /\ length crc = 8%nat /\ Forall is_hex_char crc)
  /\ (forall (s : pystr) (bs : pybytes),
        Utf8.encode s = Some bs ->
        calculate_crc32 (inl s) = calculate_crc32 (inr bs))
  /\ (forall s : pystr,
        Utf8.encode s = None -> calculate_crc32 (inl s) = None).
Proof.
  split; [|split].
  - intros b. eexists. split; [reflexivity|].
    apply (calculate_crc32_hex (inr b)). reflexivity.
  - intros s bs Hs. unfold calculate_crc32. rewrite Hs. reflexivity.
  - intros s Hs. unfold calculate_crc32. rewrite Hs. reflexivity.
Qed.

Lemma crypto_verify_no_text ct :
  decrypt_aes ct = None \/ decrypt_aes ct = Some [] ->
  crypto_verify ct = (None, None).
Proof.
  unfold crypto_verify. intros [-> | ->]; reflexivity.
Qed.

(** X2. A payload whose length is no multiple of 16 cannot be
    decrypted, and the empty payload decrypts to the empty text; a
    payload that gives no text or the empty text is not checked: its
    checksum state is [None] and the failure counter stays. *)
Theorem nothing_to_verify :
  (forall ct : pybytes,
      (length ct mod 16 <> 0)%nat -> decrypt_aes ct = None)
  /\ decrypt_aes [] = Some []
  /\ (forall ct : pybytes,
        decrypt_aes ct = None \/ decrypt_aes ct = Some [] ->
        crypto_verify ct = (None, None)
        /\ (forall d e topic st,
              checksum_failures
                (on_message d e {| msg_topic := topic; msg_payload := ct |} st)
              = checksum_failures st)).
Proof.
  split; [|split].
  - intros ct Hlen. unfold decrypt_aes, Aes.ecb_decrypt.
    apply Nat.eqb_neq in Hlen. rewrite Hlen. reflexivity.
  - reflexivity.
  - intros ct Hct. pose proof (crypto_verify_no_text ct Hct) as Hv.
    split; [exact Hv|]. intros d e topic st.
    rewrite on_message_checksum_failures. cbn [msg_payload]. rewrite Hv.
    cbn [snd]. rewrite bool_decide_eq_false_2 by discriminate. lia.
Qed.

Lemma ecb_encrypt_aligned key data :
  (length data mod 16 = 0)%nat -> is_Some (Aes.ecb_encrypt key data).
Proof.
  intros H. unfold Aes.ecb_encrypt. apply Nat.eqb_eq in H. rewrite H.
  eexists. reflexivity.
Qed.

(** X3. [decrypt_aes] inverts encryption under the key of the gateway:
    the ciphertext of the UTF-8 bytes of a text with PKCS#7 padding
    decrypts to the text; so does the ciphertext of the bytes filled up
    with zero bytes, when the last byte of the text is above 16. *)
Theorem decrypt_aes_inverts_encryption (s : pystr) (bs : pybytes) :
  Utf8.encode s = Some bs ->
  (exists ct, Aes.ecb_encrypt AES_KEY (Padding.pad bs) = Some ct
              /\ decrypt_aes ct = Some s)
  /\ (forall (k : nat) (body : pybytes) (b : byte),
        bs = body ++ [b] -> (16 < Byte.to_nat b)%nat ->
        (length (bs ++ repeat x00 k) mod 16 = 0)%nat ->
        exists ct, Aes.ecb_encrypt AES_KEY (bs ++ repeat x00 k) = Some ct
                   /\ decrypt_aes ct = Some s).
Proof.
  intros Hs. pose proof (decode_encode s bs Hs) as Hdec. split.
  - destruct (ecb_encrypt_aligned AES_KEY (Padding.pad bs) (pad_aligned bs))
      as [ct Hct].
    exists ct. split; [exact Hct|]. unfold decrypt_aes.
    rewrite (ecb_decrypt_encrypt AES_KEY _ ct eq_refl Hct).
    cbn [mbind option_bind]. rewrite unpad_pad. exact Hdec.
  - intros k body b -> Hbig Hal.
    destruct (ecb_encrypt_aligned AES_KEY _ Hal) as [ct Hct].
    exists ct. split; [exact Hct|]. unfold decrypt_aes.
    rewrite (ecb_decrypt_encrypt AES_KEY _ ct eq_refl Hct).
    cbn [mbind option_bind].
    rewrite unpad_zero_padded by exact Hbig.
    rewrite rstrip_zero_padded; [exact Hdec|].
    intros ->. cbn in Hbig. lia.
Qed.

Lemma decrypt_aes_inverts_encryption_witness :
  (exists ct, Aes.ecb_encrypt AES_KEY (Padding.pad [x54; x3d; x32]) = Some ct
              /\ decrypt_aes ct = Some [84; 61; 50])
  /\ (forall (k : nat) (body : pybytes) (b : byte),
        [x54; x3d; x32] = body ++ [b] -> (16 < Byte.to_nat b)%nat ->
        (length ([x54; x3d; x32] ++ repeat x00 k) mod 16 = 0)%nat ->
        exists ct,
          Aes.ecb_encrypt AES_KEY ([x54; x3d; x32] ++ repeat x00 k) = Some ct
          /\ decrypt_aes ct = Some [84; 61; 50]).
Proof.
  apply (decrypt_aes_inverts_encryption [84; 61; 50] [x54; x3d; x32]).
  reflexivity.
Defined.

Lemma cut_last_contains sep s :
  Str.contains sep s = true ->
  exists a b, Str.cut_last sep s = Some (a, b)
              /\ s = a ++ sep :: b /\ Forall (fun c => c <> sep) b.
Proof.
  induction s as [|c t IH]; [discriminate|].
  unfold Str.contains in *. cbn [existsb Str.cut_last].
  destruct (existsb (N.eqb sep) t) eqn:Ht.
  - intros _. destruct (IH eq_refl) as (a & b & -> & -> & Hb).
    exists (c :: a), b. repeat split; assumption.
  - rewrite orb_false_r. intros Hc. apply N.eqb_eq in Hc. subst c.
    assert (Hno : Forall (fun c => c <> sep) t).
    { apply List.Forall_forall. intros x Hx ->.
      assert (existsb (N.eqb sep) t = true)
        by (apply existsb_exists; exists sep; split; [exact Hx|apply N.eqb_refl]).
      congruence. }
    rewrite (cut_last_absent sep t Hno), N.eqb_refl.
    exists [], t. repeat split. exact Hno.
Qed.

(** X4. Where [verify_checksum] cuts: a text with a '|' is cut at its
    last '|' (the data may hold more of them); the checksum is valid
    exactly if what follows, stripped of white space, equals the CRC-32
    of the data; and if the data cannot be encoded the whole text comes
    back with [False]. *)
Theorem verify_checksum_last_delimiter (s : pystr) :
  Str.contains BAR s = true ->
  exists data tail,
    s = data ++ BAR :: tail
    /\ Forall (fun c => c <> BAR) tail
    /\ verify_checksum s
       = match calculate_crc32 (inl data) with
         | Some crc => (data, Some (bool_decide (Str.strip tail = crc)))
         | None => (s, Some false)
         end.
Proof.
  intros Hin. destruct (cut_last_contains BAR s Hin) as (a & b & Hcut & Hs & Hb).
  exists a, b. split; [exact Hs|]. split; [exact Hb|].
  unfold verify_checksum, verify_checksum_try, Str.rsplit1.
  rewrite Hin, Hcut. cbn [negb lookup list_lookup mbind option_bind].
  destruct (calculate_crc32 (inl a)); reflexivity.
Qed.

Lemma verify_checksum_last_delimiter_witness :
  exists data tail,
    [97; 124; 98; 124; 99] = data ++ BAR :: tail
    /\ Forall (fun c => c <> BAR) tail
    /\ verify_checksum [97; 124; 98; 124; 99]
       = match calculate_crc32 (inl data) with
         | Some crc => (data, Some (bool_decide (Str.strip tail = crc)))
         | None => ([97; 124; 98; 124; 99], Some false)
         end.
Proof.
  apply (verify_checksum_last_delimiter [97; 124; 98; 124; 99]). reflexivity.
Defined.

(** X5. The checksum state is [None] exactly for a text without '|':
    with a '|' it is [True] or [False]. *)
Theorem verify_checksum_none_iff (s : pystr) :
  snd (verify_checksum s) = None <-> Str.contains BAR s = false.
Proof.
  split.
  - intros Hnone. destruct (Str.contains BAR s) eqn:Hin; [|reflexivity].
    destruct (cut_last_contains BAR s Hin) as (a & b & Hcut & _ & _).
    unfold verify_checksum, verify_checksum_try, Str.rsplit1 in Hnone.
    rewrite Hin, Hcut in Hnone.
    cbn [negb lookup list_lookup mbind option_bind] in Hnone.
    destruct (calculate_crc32 (inl a)); discriminate.
  - intros Hno. rewrite (verify_checksum_no_delimiter s Hno). reflexivity.
Qed.

Lemma lstrip_spaces ws s :
  Forall (fun c => Str.isspace c = true) ws ->
  Str.lstrip (ws ++ s) = Str.lstrip s.
Proof.
  induction 1 as [|c ws Hc _ IH]; [reflexivity|].
  cbn [app Str.lstrip]. rewrite Hc. exact IH.
Qed.

Lemma lstrip_head c s : Str.isspace c = false -> Str.lstrip (c :: s) = c :: s.
Proof. intros H. cbn [Str.lstrip]. rewrite H. reflexivity. Qed.

Lemma strip_between ws1 ws2 c1 mid c2 :
  Forall (fun c => Str.isspace c = true) ws1 ->
  Forall (fun c => Str.isspace c = true) ws2 ->
  Str.isspace c1 = false -> Str.isspace c2 = false ->
  Str.strip (ws1 ++ (c1 :: mid ++ [c2]) ++ ws2) = c1 :: mid ++ [c2].
Proof.
  intros H1 H2 Hc1 Hc2. unfold Str.strip, Str.rstrip.
  assert (Hrev : rev (ws1 ++ (c1 :: mid ++ [c2]) ++ ws2)
                 = rev ws2 ++ c2 :: rev (ws1 ++ c1 :: mid)).
  { replace (ws1 ++ (c1 :: mid ++ [c2]) ++ ws2)
      with (((ws1 ++ c1 :: mid) ++ [c2]) ++ ws2)
      by (cbn [app]; rewrite <- ?app_assoc; cbn [app];
          rewrite <- ?app_assoc; reflexivity).
    rewrite (rev_app_distr _ ws2), (rev_app_distr _ [c2]). reflexivity. }
  rewrite Hrev, lstrip_spaces by (apply Forall_rev; exact H2).
  rewrite lstrip_head by exact Hc2.
  cbn [rev]. rewrite rev_involutive, <- app_assoc. cbn [app].
  rewrite lstrip_spaces by exact H1. apply lstrip_head, Hc1.
Qed.

(** X6. White space around the checksum does not matter: a text
    data|CHECKSUM whose checksum is surrounded by white space (a line
    end, blanks) verifies as valid. *)
Theorem verify_checksum_ignores_whitespace (data crc ws1 ws2 : pystr) :
  calculate_crc32 (inl data) = Some crc ->
  Forall (fun c => Str.isspace c = true) ws1 ->
  Forall (fun c => Str.isspace c = true) ws2 ->
  verify_checksum (data ++ BAR :: ws1 ++ crc ++ ws2) = (data, Some true).
Proof.
  intros Hcrc H1 H2.
  destruct (calculate_crc32_hex _ _ Hcrc) as [Hlen Hhex].
  assert (Hnb : forall ws, Forall (fun c => Str.isspace c = true) ws ->
                           Forall (fun c => c <> BAR) ws).
  { intros ws Hws. eapply Forall_impl; [exact Hws|].
    intros c Hc ->. discriminate Hc. }
  unfold verify_checksum, verify_checksum_try, Str.rsplit1.
  rewrite contains_app. cbn [negb]. rewrite cut_last_app.
  2:{ apply Forall_app. split; [apply Hnb, H1|]. apply Forall_app. split.
      - eapply Forall_impl; [exact Hhex|]. unfold is_hex_char, BAR. intros; lia.
      - apply Hnb, H2. }
  cbn [lookup list_lookup mbind option_bind]. rewrite Hcrc.
  cbn [mbind option_bind]. rewrite bool_decide_eq_true_2; [reflexivity|].
  destruct crc as [|c1 crc]; [discriminate Hlen|].
  destruct (exists_last (l := crc)) as (mid & c2 & ->).
  { intros ->. discriminate Hlen. }
  apply strip_between; try assumption.
  - apply is_hex_not_space. inversion Hhex; assumption.
  - apply is_hex_not_space. inversion Hhex as [|? ? _ Ht]; subst.
    apply Forall_app in Ht. destruct Ht as [_ Ht]. inversion Ht; assumption.
Qed.

Lemma verify_checksum_ignores_whitespace_witness :
  verify_checksum
    ([49; 50; 51; 52; 53; 54; 55; 56; 57] ++ BAR :: [32]
       ++ [67; 66; 70; 52; 51; 57; 50; 54] ++ [13; 10])
  = ([49; 50; 51; 52; 53; 54; 55; 56; 57], Some true).
Proof.
  apply (verify_checksum_ignores_whitespace
           [49; 50; 51; 52; 53; 54; 55; 56; 57]
           [67; 66; 70; 52; 51; 57; 50; 54] [32] [13; 10]).
  - reflexivity.
  - repeat constructor.
  - repeat constructor.
Defined.

Lemma decode_scalar n : forall bs s,
  (length bs <= n)%nat -> Utf8.decode bs = Some s -> Forall is_scalar s.
Proof.
  induction n as [|n IH]; intros bs s Hlen.
  - destruct bs; [|cbn in Hlen; lia]. intros [= <-]. constructor.
  - destruct bs as [|b0 r0]; [intros [= <-]; constructor|].
    rewrite decode_cons. cbv zeta. cbn [length] in Hlen.
    pose proof (Byte.to_N_bounded b0) as Hb0.
    destruct (Byte.to_N b0 <? 0x80) eqn:H0.
    { destruct (Utf8.decode r0) as [t|] eqn:Ht; [|discriminate].
      intros [= <-]. constructor.
      - unfold is_scalar, Utf8.is_surrogate. apply N.ltb_lt in H0.
        split; [lia|]. apply andb_false_iff. left. apply N.leb_gt. lia.
      - apply (IH r0); [lia|exact Ht]. }
    destruct (Utf8.in_range 0xC2 0xDF (Byte.to_N b0)) eqn:H1.
    { destruct r0 as [|b1 r1]; [discriminate|].
      destruct (Utf8.is_cont (Byte.to_N b1)) eqn:Hc1; [|discriminate].
      destruct (Utf8.decode r1) as [t|] eqn:Ht; [|discriminate].
      intros [= <-]. constructor.
      - unfold is_scalar, Utf8.is_surrogate. bool_hyps.
        split; [lia|]. apply andb_false_iff. left. apply N.leb_gt. lia.
      - apply (IH r1); [cbn [length] in Hlen; lia|exact Ht]. }
    destruct (Utf8.in_range 0xE0 0xEF (Byte.to_N b0)) eqn:H2.
    { destruct r0 as [|b1 [|b2 r2]]; try discriminate.
      destruct (Utf8.second_of_3 (Byte.to_N b0) (Byte.to_N b1)
                && Utf8.is_cont (Byte.to_N b2)) eqn:Hc; [|discriminate].
      destruct (Utf8.decode r2) as [t|] eqn:Ht; [|discriminate].
      intros [= <-]. constructor.
      - unfold is_scalar, Utf8.is_surrogate.
        apply andb_true_iff in Hc. destruct Hc as [Hc1 Hc2].
        destruct (N.lt_total (Byte.to_N b0) 0xED) as [Hlt|[Heq|Hgt]];
          bool_hyps; (split; [lia|]);
          apply andb_false_iff;
          first [left; apply N.leb_gt; lia | right; apply N.leb_gt; lia].
      - apply (IH r2); [cbn [length] in Hlen; lia|exact Ht]. }
    destruct (Utf8.in_range 0xF0 0xF4 (Byte.to_N b0)) eqn:H3; [|discriminate].
    destruct r0 as [|b1 [|b2 [|b3 r3]]]; try discriminate.
    destruct (Utf8.second_of_4 (Byte.to_N b0) (Byte.to_N b1)
              && Utf8.is_cont (Byte.to_N b2) && Utf8.is_cont (Byte.to_N b3))
      eqn:Hc; [|discriminate].
    destruct (Utf8.decode r3) as [t|] eqn:Ht; [|discriminate].
    intros [= <-]. constructor.
    + unfold is_scalar, Utf8.is_surrogate.
      apply andb_true_iff in Hc. destruct Hc as [Hc Hc3].
      apply andb_true_iff in Hc. destruct Hc as [Hc1 Hc2].
      bool_hyps; (split; [lia|]);
        apply andb_false_iff; right; apply N.leb_gt; lia.
    + apply (IH r3); [cbn [length] in Hlen; lia|exact Ht].
Qed.

Lemma decrypt_aes_scalar ct s : decrypt_aes ct = Some s -> Forall is_scalar s.
Proof.
  unfold decrypt_aes. destruct (Aes.ecb_decrypt AES_KEY ct); [|discriminate].
  cbn [mbind option_bind]. intros Hdec.
  eapply decode_scalar; [reflexivity|exact Hdec].
Qed.

(** X7. A decrypted text can always be checked: what [decrypt_aes]
    returns holds Unicode scalar values only, so the CRC-32 of its data
    part never raises; hence for a decrypted text with a '|' the
    checksum is [False] only when the stripped checksum differs from
    the CRC-32 of the data, never because of an exception. *)
Theorem decrypted_text_is_checked (ct : pybytes) (s : pystr) :
  decrypt_aes ct = Some s ->
  Forall is_scalar s
  /\ (Str.contains BAR s = true ->
      exists data tail crc,
        s = data ++ BAR :: tail
        /\ calculate_crc32 (inl data) = Some crc
        /\ verify_checksum s
           = (data, Some (bool_decide (Str.strip tail = crc)))).
Proof.
  intros Hdec. pose proof (decrypt_aes_scalar ct s Hdec) as Hsc.
  split; [exact Hsc|]. intros Hin.
  destruct (cut_last_contains BAR s Hin) as (data & tail & Hcut & Hs & Hb).
  assert (Hdata : Forall is_scalar data).
  { rewrite Hs in Hsc. apply Forall_app in Hsc. apply Hsc. }
  destruct (encode_scalar data Hdata) as [bs Hbs].
  exists data, tail, (Str.format_08X (N.land (Zlib.crc32 bs) 0xFFFFFFFF)).
  assert (Hcrc : calculate_crc32 (inl data)
                 = Some (Str.format_08X (N.land (Zlib.crc32 bs) 0xFFFFFFFF))).
  { unfold calculate_crc32. rewrite Hbs. reflexivity. }
  split; [exact Hs|]. split; [exact Hcrc|].
  unfold verify_checksum, verify_checksum_try, Str.rsplit1.
  rewrite Hin, Hcut. cbn [negb lookup list_lookup mbind option_bind].
  rewrite Hcrc. reflexivity.
Qed.

Lemma decrypted_text_is_checked_witness :
  Forall is_scalar (sample_data ++ BAR :: [53; 68; 53; 51; 69; 53; 70; 55])
  /\ (Str.contains BAR (sample_data ++ BAR :: [53; 68; 53; 51; 69; 53; 70; 55])
      = true ->
      exists data tail crc,
        sample_data ++ BAR :: [53; 68; 53; 51; 69; 53; 70; 55]
        = data ++ BAR :: tail
        /\ calculate_crc32 (inl data) = Some crc
        /\ verify_checksum
             (sample_data ++ BAR :: [53; 68; 53; 51; 69; 53; 70; 55])
           = (data, Some (bool_decide (Str.strip tail = crc)))).
Proof.
  apply (decrypted_text_is_checked sample_ciphertext).
  vm_compute. reflexivity.
Defined.

#[local] Close Scope N_scope.
#[local] Open Scope Z_scope.

(** ** More on the handler *)

Lemma ingest_cons d em events st :
  ingest d (em :: events) st = ingest d events (on_message d (fst em) (snd em) st).
Proof. reflexivity. Qed.

Lemma ingest_app d ev1 ev2 st :
  ingest d (ev1 ++ ev2) st = ingest d ev2 (ingest d ev1 st).
Proof. apply fold_left_app. Qed.

Lemma on_message_counters d e msg st :
  0 <= attacks_detected (on_message d e msg st) - attacks_detected st
  /\ attacks_detected (on_message d e msg st) - attacks_detected st
     <= total_packets (on_message d e msg st) - total_packets st
  /\ total_packets (on_message d e msg st) - total_packets st <= 1
  /\ Z.of_nat (length (attack_log (on_message d e msg st)))
     - Z.of_nat (length (attack_log st))
     <= attacks_detected (on_message d e msg st) - attacks_detected st
  /\ (env_log_ok e = true ->
      Z.of_nat (length (attack_log (on_message d e msg st)))
      - Z.of_nat (length (attack_log st))
      = attacks_detected (on_message d e msg st) - attacks_detected st).
Proof.
  on_message_cases; rewrite ?length_app; cbn [length];
    repeat split; try lia; discriminate.
Qed.

Lemma ingest_counters d events st :
  0 <= attacks_detected (ingest d events st) - attacks_detected st
  /\ attacks_detected (ingest d events st) - attacks_detected st
     <= total_packets (ingest d events st) - total_packets st
  /\ total_packets (ingest d events st) - total_packets st
     <= Z.of_nat (length events)
  /\ Z.of_nat (length (attack_log (ingest d events st)))
     - Z.of_nat (length (attack_log st))
     <= attacks_detected (ingest d events st) - attacks_detected st
  /\ (Forall (fun em => env_log_ok (fst em) = true) events ->
      Z.of_nat (length (attack_log (ingest d events st)))
      - Z.of_nat (length (attack_log st))
      = attacks_detected (ingest d events st) - attacks_detected st)
  /\ checksum_failures (ingest d events st)
     = checksum_failures st
       + Z.of_nat (length (List.filter checksum_fails events)).
Proof.
  revert st. induction events as [|[e msg] events IH]; intros st.
  - cbn. repeat split; lia.
  - rewrite ingest_cons. cbn [fst snd].
    destruct (IH (on_message d e msg st)) as (I1 & I2 & I3 & I4 & I5 & I6).
    destruct (on_message_counters d e msg st) as (S1 & S2 & S3 & S4 & S5).
    pose proof (on_message_checksum_failures d e msg st) as S6.
    assert (Hf : Z.of_nat (length (List.filter checksum_fails ((e, msg) :: events)))
                 = (if bool_decide (snd (crypto_verify (msg_payload msg)) = Some false)
                    then 1 else 0)
                   + Z.of_nat (length (List.filter checksum_fails events))).
    { cbn [List.filter]. unfold checksum_fails at 1. cbn [snd].
      destruct (bool_decide _); cbn [length]; lia. }
    cbn [length]. repeat split; try lia.
    intros Hall. inversion Hall as [|? ? Hok Hrest]; subst. cbn [fst] in Hok.
    specialize (I5 Hrest). specialize (S5 Hok). lia.
Qed.

(** X8. The counters of a run: the attacks detected never exceed the
    packets analysed, which never exceed the messages received; the
    attack log holds no more lines than attacks were detected, and as
    many when every write to the log file succeeded; and the checksum
    failures are exactly the messages whose checksum is [False],
    whatever the classifier says of them. *)
Theorem counters_of_a_run (d : detector) (events : list (env * message)) :
  0 <= attacks_detected (ingest d events initial_state)
  /\ attacks_detected (ingest d events initial_state)
     <= total_packets (ingest d events initial_state)
  /\ total_packets (ingest d events initial_state) <= Z.of_nat (length events)
  /\ Z.of_nat (length (attack_log (ingest d events initial_state)))
     <= attacks_detected (ingest d events initial_state)
  /\ (Forall (fun em => env_log_ok (fst em) = true) events ->
      Z.of_nat (length (attack_log (ingest d events initial_state)))
      = attacks_detected (ingest d events initial_state))
  /\ checksum_failures (ingest d events initial_state)
     = Z.of_nat (length (List.filter checksum_fails events)).
Proof.
  destruct (ingest_counters d events initial_state)
    as (I1 & I2 & I3 & I4 & I5 & I6).
  cbn [initial_state attacks_detected total_packets attack_log
       checksum_failures length] in *.
  repeat split; try lia. intros Hall. specialize (I5 Hall). lia.
Qed.

Lemma ingest_dom d events st :
  dom (last_packet_time (ingest d events st))
  = list_to_set (topics_of events) ∪ dom (last_packet_time st).
Proof.
  revert st. induction events as [|[e msg] events IH]; intros st.
  - cbn. rewrite (left_id_L ∅ (∪)). reflexivity.
  - rewrite ingest_cons, IH, on_message_last_packet_time, dom_insert_L.
    cbn [fst snd topics_of map list_to_set].
    rewrite (assoc_L (∪)), (comm_L (∪) (list_to_set _) {[ msg_topic msg ]}).
    reflexivity.
Qed.

(** X9. The timing table after a run holds exactly the topics that were
    seen, and for each of them the arrival time of its latest message:
    nothing is ever removed from it. *)
Theorem last_packet_time_topics (d : detector) (events : list (env * message)) :
  dom (last_packet_time (ingest d events initial_state))
  = list_to_set (topics_of events)
  /\ (forall before e msg after,
        events = before ++ (e, msg) :: after ->
        Forall (fun em => msg_topic (snd em) <> msg_topic msg) after ->
        last_packet_time (ingest d events initial_state) !! msg_topic msg
        = Some (env_time e)).
Proof.
  split.
  - rewrite ingest_dom. cbn [initial_state last_packet_time].
    rewrite dom_empty_L, (right_id_L ∅ (∪)). reflexivity.
  - intros before e msg after -> Hafter.
    rewrite ingest_app, ingest_cons. cbn [fst snd].
    rewrite (ingest_last_packet_time_other d _ after _ Hafter).
    rewrite on_message_last_packet_time. apply lookup_insert_eq.
Qed.

(** X10. Only metadata reaches the detector: two messages on the same
    topic with payloads of the same length, arriving in the same state,
    leave the same timing table, packet and attack counters and attack
    log, whatever the payloads hold and whether or not their checksums
    verify. *)
Theorem detection_uses_metadata_only (d : detector) (e : env) (topic : pystr)
    (p1 p2 : pybytes) (st : ids_state) :
  length p1 = length p2 ->
  last_packet_time (on_message d e {| msg_topic := topic; msg_payload := p1 |} st)
  = last_packet_time (on_message d e {| msg_topic := topic; msg_payload := p2 |} st)
  /\ total_packets (on_message d e {| msg_topic := topic; msg_payload := p1 |} st)
     = total_packets (on_message d e {| msg_topic := topic; msg_payload := p2 |} st)
  /\ attacks_detected (on_message d e {| msg_topic := topic; msg_payload := p1 |} st)
     = attacks_detected (on_message d e {| msg_topic := topic; msg_payload := p2 |} st)
  /\ attack_log (on_message d e {| msg_topic := topic; msg_payload := p1 |} st)
     = attack_log (on_message d e {| msg_topic := topic; msg_payload := p2 |} st).
Proof.
  intros Hlen. unfold on_message, flow_delta, log_attack.
  cbn [msg_topic msg_payload should_block extract_source_ip].
  rewrite Hlen.
  destruct (bool_decide (snd (crypto_verify p1) = Some false));
    destruct (bool_decide (snd (crypto_verify p2) = Some false));
    cbn [last_packet_time incr_checksum_failures];
    match goal with
    | |- context [extract_features ?a ?b ?c] => destruct (extract_features a b c)
    end;
    try (match goal with
         | |- context [detect_intrusion ?d ?f] =>
             destruct (detect_intrusion d f) as [[|] ?]
         end);
    try destruct (env_log_ok e); cbn; repeat split; reflexivity.
Qed.

Lemma detection_uses_metadata_only_witness :
  let d := {| ml_model := Some (constant_classifier 1 0.9%float);
              scaler := None |} in
  let e := env_at 1%float in
  last_packet_time
    (on_message d e {| msg_topic := sample_topic; msg_payload := [x00] |}
       initial_state)
  = last_packet_time
      (on_message d e {| msg_topic := sample_topic; msg_payload := [xff] |}
         initial_state)
  /\ total_packets
       (on_message d e {| msg_topic := sample_topic; msg_payload := [x00] |}
          initial_state)
     = total_packets
         (on_message d e {| msg_topic := sample_topic; msg_payload := [xff] |}
            initial_state)
  /\ attacks_detected
       (on_message d e {| msg_topic := sample_topic; msg_payload := [x00] |}
          initial_state)
     = attacks_detected
         (on_message d e {| msg_topic := sample_topic; msg_payload := [xff] |}
            initial_state)
  /\ attack_log
       (on_message d e {| msg_topic := sample_topic; msg_payload := [x00] |}
          initial_state)
     = attack_log
         (on_message d e {| msg_topic := sample_topic; msg_payload := [xff] |}
            initial_state).
Proof.
  apply (detection_uses_metadata_only
           {| ml_model := Some (constant_classifier 1 0.9%float);
              scaler := None |}
           (env_at 1%float) sample_topic [x00] [xff] initial_state).
  reflexivity.
Defined.

Lemma features_of_first e msg st :
  last_packet_time st !! msg_topic msg = None ->
  features_of e msg st
  = Return [[ float_of_int (Z.of_nat (length (msg_payload msg)));
              0%float;
              float_of_int (Z.of_nat (length (msg_topic msg)));
              1000%float;
              float_of_int (Z.of_nat (length (msg_payload msg))) ]].
Proof.
  intros Hnew. unfold features_of, flow_delta. cbn [fst]. rewrite Hnew.
  rewrite extract_features_eq. reflexivity.
Qed.

(** X11. The first message of a topic: its time delta is 0, so its rate
    feature is 1 / 0.001, that is 1000 packets per second, whatever the
    traffic; it is always analysed and counted. *)
Theorem first_message_features (d : detector) (e : env) (msg : message)
    (st : ids_state) :
  last_packet_time st !! msg_topic msg = None ->
  features_of e msg st
  = Return [[ float_of_int (Z.of_nat (length (msg_payload msg)));
              0%float;
              float_of_int (Z.of_nat (length (msg_topic msg)));
              1000%float;
              float_of_int (Z.of_nat (length (msg_payload msg))) ]]
  /\ total_packets (on_message d e msg st) = total_packets st + 1.
Proof.
  intros Hnew. pose proof (features_of_first e msg st Hnew) as Hf.
  split; [exact Hf|].
  unfold features_of in Hf. unfold on_message.
  destruct (bool_decide _).
  - unfold flow_delta in *. cbn [fst last_packet_time incr_checksum_failures] in *.
    rewrite Hf. destruct (detect_intrusion _ _) as [[|] c];
      unfold log_attack; try destruct (env_log_ok e); reflexivity.
  - unfold flow_delta in *. cbn [fst] in *.
    rewrite Hf. destruct (detect_intrusion _ _) as [[|] c];
      unfold log_attack; try destruct (env_log_ok e); reflexivity.
Qed.

Lemma first_message_features_witness :
  let msg := {| msg_topic := sample_topic; msg_payload := [x00; x01] |} in
  features_of (env_at 5%float) msg initial_state
  = Return [[ float_of_int (Z.of_nat (length (msg_payload msg)));
              0%float;
              float_of_int (Z.of_nat (length (msg_topic msg)));
              1000%float;
              float_of_int (Z.of_nat (length (msg_payload msg))) ]]
  /\ total_packets (on_message no_detector (env_at 5%float) msg initial_state)
     = total_packets initial_state + 1.
Proof.
  apply (first_message_features no_detector (env_at 5%float)
           {| msg_topic := sample_topic; msg_payload := [x00; x01] |}
           initial_state).
  reflexivity.
Defined.

Lemma features_of_last_packet_time e msg st1 st2 :
  last_packet_time st1 = last_packet_time st2 ->
  features_of e msg st1 = features_of e msg st2.
Proof.
  intros Heq. unfold features_of, flow_delta. cbn [fst]. rewrite Heq.
  reflexivity.
Qed.

Lemma on_message_total_packets d e msg st :
  total_packets (on_message d e msg st)
  = total_packets st
    + match features_of e msg st with Return _ => 1 | Raise _ => 0 end.
Proof.
  unfold features_of, on_message.
  destruct (bool_decide _); unfold flow_delta;
    cbn [fst last_packet_time incr_checksum_failures];
    destruct (extract_features _ _ _);
    try (match goal with
         | |- context [detect_intrusion ?d ?f] =>
             destruct (detect_intrusion d f) as [[|] ?]
         end);
    unfold log_attack; try destruct (env_log_ok e); cbn; lia.
Qed.

(** X12. When feature extraction raises, the handler ends in its
    [except] clause: the message is not counted as analysed and is
    neither flagged nor logged, but what was done before stays: its
    arrival time is in the timing table and a failed checksum is
    counted. *)
Theorem on_message_exception_keeps_updates (d : detector) (e : env)
    (msg : message) (st : ids_state) (ex : exn) :
  features_of e msg st = Raise ex ->
  total_packets (on_message d e msg st) = total_packets st
  /\ attacks_detected (on_message d e msg st) = attacks_detected st
  /\ attack_log (on_message d e msg st) = attack_log st
  /\ last_packet_time (on_message d e msg st) !! msg_topic msg
     = Some (env_time e)
  /\ checksum_failures (on_message d e msg st)
     = checksum_failures st + (if checksum_fails (e, msg) then 1 else 0).
Proof.
  intros Hf.
  rewrite on_message_last_packet_time, lookup_insert_eq.
  rewrite on_message_checksum_failures.
  repeat split; try reflexivity;
    unfold features_of in Hf; unfold on_message;
    destruct (bool_decide _);
    unfold flow_delta in *;
    cbn [fst last_packet_time incr_checksum_failures] in *;
    rewrite Hf; reflexivity.
Qed.

Lemma on_message_exception_keeps_updates_witness :
  let msg := {| msg_topic := sample_topic; msg_payload := [] |} in
  let st := set_last_packet_time <[sample_topic := 0.001%float]> initial_state in
  total_packets (on_message no_detector (env_at 0%float) msg st)
  = total_packets st
  /\ attacks_detected (on_message no_detector (env_at 0%float) msg st)
     = attacks_detected st
  /\ attack_log (on_message no_detector (env_at 0%float) msg st) = attack_log st
  /\ last_packet_time (on_message no_detector (env_at 0%float) msg st)
       !! msg_topic msg
     = Some (env_time (env_at 0%float))
  /\ checksum_failures (on_message no_detector (env_at 0%float) msg st)
     = checksum_failures st
       + (if checksum_fails (env_at 0%float, msg) then 1 else 0).
Proof.
  apply (on_message_exception_keeps_updates no_detector (env_at 0%float)
           {| msg_topic := sample_topic; msg_payload := [] |}
           (set_last_packet_time <[sample_topic := 0.001%float]> initial_state)
           ZeroDivisionError).
  unfold features_of, flow_delta.
  cbn [fst msg_topic env_time env_at set_last_packet_time last_packet_time].
  rewrite lookup_insert_eq. rewrite extract_features_eq. reflexivity.
Defined.

Lemma features_of_nonnegative_delta e msg st :
  is_finite (fst (flow_delta (msg_topic msg) (env_time e) st)) = true ->
  (0 <=? fst (flow_delta (msg_topic msg) (env_time e) st))%float = true ->
  exists f, features_of e msg st = Return f.
Proof.
  intros Hfin Hge. unfold features_of.
  destruct (div_one_finite _ (add_epsilon_cases _ Hfin Hge)) as [Hnz _].
  rewrite extract_features_eq, Hnz. eexists. reflexivity.
Qed.

(** X13. A message whose time delta is a finite number that is at least
    zero is always analysed: feature extraction returns, and the packet
    counter goes up by one. *)
Theorem nonnegative_delta_is_analysed (d : detector) (e : env) (msg : message)
    (st : ids_state) :
  is_finite (fst (flow_delta (msg_topic msg) (env_time e) st)) = true ->
  (0 <=? fst (flow_delta (msg_topic msg) (env_time e) st))%float = true ->
  (exists f, features_of e msg st = Return f)
  /\ total_packets (on_message d e msg st) = total_packets st + 1.
Proof.
  intros Hfin Hge.
  destruct (features_of_nonnegative_delta e msg st Hfin Hge) as [f Hf].
  split; [exists f; exact Hf|].
  rewrite on_message_total_packets, Hf. reflexivity.
Qed.

Lemma nonnegative_delta_is_analysed_witness :
  let msg := {| msg_topic := sample_topic; msg_payload := [] |} in
  let st := set_last_packet_time <[sample_topic := 1%float]> initial_state in
  (exists f, features_of (env_at 3%float) msg st = Return f)
  /\ total_packets (on_message no_detector (env_at 3%float) msg st)
     = total_packets st + 1.
Proof.
  apply (nonnegative_delta_is_analysed no_detector (env_at 3%float)
           {| msg_topic := sample_topic; msg_payload := [] |}
           (set_last_packet_time <[sample_topic := 1%float]> initial_state)).
  - unfold flow_delta.
    cbn [fst msg_topic env_time env_at set_last_packet_time last_packet_time].
    rewrite lookup_insert_eq. reflexivity.
  - unfold flow_delta.
    cbn [fst msg_topic env_time env_at set_last_packet_time last_packet_time].
    rewrite lookup_insert_eq. reflexivity.
Defined.

(** ** More on detection *)

(** X14. Errors of the classifier fail open: when the scaler raises,
    when [predict] raises, or when [predict] gives no prediction, the
    message is benign with confidence 0.0. *)
Theorem detect_intrusion_error_is_benign (d : detector) (m : classifier)
    (features : list (list float)) :
  ml_model d = Some m ->
  (exists ex, scale_features (scaler d) features = Raise ex)
  \/ (exists scaled,
        scale_features (scaler d) features = Return scaled
        /\ ((exists ex, predict m scaled = Raise ex)
            \/ predict m scaled = Return [])) ->
  detect_intrusion d features = (false, 0%float).
Proof.
  intros Hm Herr. unfold detect_intrusion, detect_intrusion_try. rewrite Hm.
  destruct Herr as [[ex Hs] | (scaled & Hs & [[ex Hp] | Hp])];
    rewrite Hs; cbn [bind]; try rewrite Hp; reflexivity.
Qed.

Lemma detect_intrusion_error_is_benign_witness :
  detect_intrusion
    {| ml_model := Some {| predict := fun _ => Return [];
                           predict_proba := fun _ => Return [] |};
       scaler := None |} [[1%float]]
  = (false, 0%float).
Proof.
  apply (detect_intrusion_error_is_benign _
           {| predict := fun _ => Return []; predict_proba := fun _ => Return [] |}
           [[1%float]]).
  - reflexivity.
  - right. exists [[1%float]]. split; [reflexivity|]. right. reflexivity.
Defined.

Lemma np_index_head {A : Type} (x : A) (l : list A) :
  np_index (x :: l) 0 = Return x.
Proof.
  unfold np_index. change (0 <? 0) with false. cbv beta iota.
  assert (Hin : (0 <=? 0) && (0 <? Z.of_nat (length (x :: l))) = true).
  { apply andb_true_iff. split; [reflexivity|]. apply Z.ltb_lt. cbn [length]. lia. }
  rewrite Hin. reflexivity.
Qed.

Lemma np_index_out {A : Type} (l : list A) (i : Z) :
  Z.of_nat (length l) <= i -> np_index l i = Raise IndexError.
Proof.
  intros Hle. unfold np_index.
  assert (Hneg : (i <? 0) = false) by (apply Z.ltb_ge; lia).
  rewrite Hneg.
  assert (Hout : (0 <=? i) && (i <? Z.of_nat (length l)) = false).
  { apply andb_false_iff. right. apply Z.ltb_ge. exact Hle. }
  rewrite Hout. reflexivity.
Qed.

(** X15. Without usable probabilities the label alone decides: when
    [predict_proba] raises, or gives a row that is too short for the
    predicted label, the confidence is 1.0 for label 1 and 0.0
    otherwise, and the message is an attack exactly if the label is 1. *)
Theorem detect_intrusion_without_probabilities (d : detector) (m : classifier)
    (features scaled : list (list float)) (label : Z) (rest : list Z) :
  ml_model d = Some m ->
  scale_features (scaler d) features = Return scaled ->
  predict m scaled = Return (label :: rest) ->
  (exists ex, predict_proba m scaled = Raise ex)
  \/ (exists row others,
        predict_proba m scaled = Return (row :: others)
        /\ Z.of_nat (length row) <= label) ->
  detect_intrusion d features
  = ((label =? 1), if label =? 1 then 1%float else 0%float).
Proof.
  intros Hm Hs Hp Hproba.
  assert (Hc : confidence_of m scaled label
               = if label =? 1 then 1%float else 0%float).
  { unfold confidence_of.
    destruct Hproba as [[ex ->] | (row & others & -> & Hlen)]; [reflexivity|].
    cbn [bind]. rewrite np_index_head. cbn [bind].
    rewrite (np_index_out row label Hlen). reflexivity. }
  unfold detect_intrusion, detect_intrusion_try. rewrite Hm, Hs.
  cbn [bind]. rewrite Hp. cbn [bind]. rewrite np_index_head. cbn [bind].
  rewrite Hc. cbn [try_except].
  destruct (label =? 1); reflexivity.
Qed.

Lemma detect_intrusion_without_probabilities_witness :
  detect_intrusion
    {| ml_model := Some {| predict := fun _ => Return [1];
                           predict_proba := fun _ => Raise OtherError |};
       scaler := None |} [[1%float]]
  = ((1 =? 1), if 1 =? 1 then 1%float else 0%float).
Proof.
  apply (detect_intrusion_without_probabilities _
           {| predict := fun _ => Return [1];
              predict_proba := fun _ => Raise OtherError |}
           [[1%float]] [[1%float]] 1 []).
  - reflexivity.
  - reflexivity.
  - reflexivity.
  - left. exists OtherError. reflexivity.
Defined.

(** X16. A flagged message is a confident one: whenever
    [detect_intrusion] answers [True], whatever the model and the
    scaler do, a model is loaded and the confidence reported is at
    least the threshold. *)
Theorem attack_flag_sound (d : detector) (features : list (list float)) :
  fst (detect_intrusion d features) = true ->
  (DETECTION_THRESHOLD <=? snd (detect_intrusion d features))%float = true
  /\ ml_model d <> None.
Proof.
  unfold detect_intrusion. destruct (ml_model d) as [m|]; [|discriminate].
  unfold detect_intrusion_try.
  destruct (scale_features (scaler d) features) as [scaled|]; [|discriminate].
  cbn [bind]. destruct (predict m scaled) as [predictions|]; [|discriminate].
  cbn [bind]. destruct (np_index predictions 0) as [prediction|]; [|discriminate].
  cbn [bind try_except fst snd]. intros Hflag.
  apply andb_true_iff in Hflag. destruct Hflag as [_ Hconf].
  split; [exact Hconf|discriminate].
Qed.

Lemma attack_flag_sound_witness :
  let d := {| ml_model := Some (constant_classifier 1 0.9%float);
              scaler := None |} in
  (DETECTION_THRESHOLD <=? snd (detect_intrusion d [[1%float]]))%float = true
  /\ ml_model d <> None.
Proof.
  apply (attack_flag_sound
           {| ml_model := Some (constant_classifier 1 0.9%float);
              scaler := None |} [[1%float]]).
  reflexivity.
Defined.

(** ** More on the firewall *)

(** X17. Blocking and then unblocking an address that was not blocked,
    both commands succeeding, gives the blocked set back as it was; the
    blocked counter stays one higher, and the two commands were run,
    deny first. *)
Theorem block_then_unblock (ip : pystr) (st : ids_state) :
  ip ∉ blocked_ips st ->
  blocked_ips (unblock_ip (Return 0) ip (block_ip (Return 0) ip st))
  = blocked_ips st
  /\ ips_blocked (unblock_ip (Return 0) ip (block_ip (Return 0) ip st))
     = ips_blocked st + 1
  /\ commands_run (unblock_ip (Return 0) ip (block_ip (Return 0) ip st))
     = commands_run st ++ [Deny ip; Allow ip].
Proof.
  intros Hnot. rewrite (block_ip_success ip st Hnot).
  unfold unblock_ip. cbn. repeat split.
  - apply set_eq. intros x.
    rewrite elem_of_difference, elem_of_union, !elem_of_singleton.
    split; [intros [[Hx|Hx] Hne]; [contradiction|exact Hx]|].
    intros Hx. split; [right; exact Hx|]. intros ->. contradiction.
  - rewrite <- app_assoc. reflexivity.
Qed.

Lemma block_then_unblock_witness :
  blocked_ips
    (unblock_ip (Return 0) sample_ip (block_ip (Return 0) sample_ip initial_state))
  = blocked_ips initial_state
  /\ ips_blocked
       (unblock_ip (Return 0) sample_ip
          (block_ip (Return 0) sample_ip initial_state))
     = ips_blocked initial_state + 1
  /\ commands_run
       (unblock_ip (Return 0) sample_ip
          (block_ip (Return 0) sample_ip initial_state))
     = commands_run initial_state ++ [Deny sample_ip; Allow sample_ip].
Proof.
  apply (block_then_unblock sample_ip initial_state).
  cbn. apply not_elem_of_empty.
Defined.

(** X18. A firewall command that fails, by a non-zero exit code or by
    an exception, changes neither the blocked set nor the blocked
    counter, for [block_ip] and for [unblock_ip] alike; the command was
    run all the same. *)
Theorem failed_command_changes_nothing (run : outcome Z) (ip : pystr)
    (st : ids_state) :
  run <> Return 0 ->
  blocked_ips (block_ip run ip st) = blocked_ips st
  /\ ips_blocked (block_ip run ip st) = ips_blocked st
  /\ (ip ∉ blocked_ips st ->
      commands_run (block_ip run ip st) = commands_run st ++ [Deny ip])
  /\ blocked_ips (unblock_ip run ip st) = blocked_ips st
  /\ ips_blocked (unblock_ip run ip st) = ips_blocked st
  /\ commands_run (unblock_ip run ip st) = commands_run st ++ [Allow ip].
Proof.
  intros Hfail.
  assert (Hrc : forall rc, run = Return rc -> (rc =? 0) = false).
  { intros rc ->. apply Z.eqb_neq. intros ->. apply Hfail. reflexivity. }
  unfold block_ip, unblock_ip.
  destruct run as [rc|ex]; [rewrite (Hrc rc eq_refl)|];
    repeat split; try (case_bool_decide; reflexivity);
    intros Hnot; rewrite bool_decide_eq_false_2 by exact Hnot; reflexivity.
Qed.

Lemma failed_command_changes_nothing_witness :
  blocked_ips (block_ip (Return 1) sample_ip initial_state)
  = blocked_ips initial_state
  /\ ips_blocked (block_ip (Return 1) sample_ip initial_state)
     = ips_blocked initial_state
  /\ (sample_ip ∉ blocked_ips initial_state ->
      commands_run (block_ip (Return 1) sample_ip initial_state)
      = commands_run initial_state ++ [Deny sample_ip])
  /\ blocked_ips (unblock_ip (Return 1) sample_ip initial_state)
     = blocked_ips initial_state
  /\ ips_blocked (unblock_ip (Return 1) sample_ip initial_state)
     = ips_blocked initial_state
  /\ commands_run (unblock_ip (Return 1) sample_ip initial_state)
     = commands_run initial_state ++ [Allow sample_ip].
Proof.
  apply (failed_command_changes_nothing (Return 1) sample_ip initial_state).
  discriminate.
Defined.

(** X19. The firewall functions touch one address only: whatever the
    command answers, blocking or unblocking an address leaves every
    other address in the blocked set or out of it, as it was. *)
Theorem other_addresses_untouched (run : outcome Z) (ip other : pystr)
    (st : ids_state) :
  other <> ip ->
  (other ∈ blocked_ips (block_ip run ip st) <-> other ∈ blocked_ips st)
  /\ (other ∈ blocked_ips (unblock_ip run ip st) <-> other ∈ blocked_ips st).
Proof.
  intros Hne. unfold block_ip, unblock_ip. split.
  - case_bool_decide; [reflexivity|].
    destruct run as [rc|ex]; [destruct (rc =? 0)|]; cbn; try reflexivity.
    rewrite elem_of_union, elem_of_singleton. split; [|auto].
    intros [Heq|Hin]; [contradiction|exact Hin].
  - destruct run as [rc|ex]; [destruct (rc =? 0)|]; cbn; try reflexivity.
    rewrite elem_of_difference, elem_of_singleton. split; [|auto].
    intros [Hin _]. exact Hin.
Qed.

Lemma other_addresses_untouched_witness :
  ([49%N] ∈ blocked_ips (block_ip (Return 0) sample_ip initial_state)
   <-> [49%N] ∈ blocked_ips initial_state)
  /\ ([49%N] ∈ blocked_ips (unblock_ip (Return 0) sample_ip initial_state)
      <-> [49%N] ∈ blocked_ips initial_state).
Proof.
  apply (other_addresses_untouched (Return 0) sample_ip [49%N] initial_state).
  discriminate.
Defined.

Lemma step_commands_invariant d st a :
  (forall ip, ip ∈ blocked_ips st -> In (Deny ip) (commands_run st)) ->
  0 <= ips_blocked st
       <= Z.of_nat (length (List.filter is_deny (commands_run st))) ->
  (forall ip, ip ∈ blocked_ips (step d st a) ->
              In (Deny ip) (commands_run (step d st a)))
  /\ 0 <= ips_blocked (step d st a)
          <= Z.of_nat (length (List.filter is_deny (commands_run (step d st a)))).
Proof.
  intros Hmem Hcount. destruct a as [e msg|run ip|run ip]; cbn [step].
  - rewrite on_message_blocked_ips, on_message_ips_blocked,
      on_message_commands_run. split; assumption.
  - unfold block_ip. case_bool_decide as Hin; [split; assumption|].
    destruct run as [rc|ex]; [destruct (rc =? 0)|]; cbn;
      rewrite List.filter_app, length_app; cbn [List.filter is_deny length];
      (split; [|lia]); intros x Hx; apply in_or_app.
    + apply elem_of_union in Hx. destruct Hx as [Hx|Hx].
      * apply elem_of_singleton in Hx. subst x. right. left. reflexivity.
      * left. apply Hmem, Hx.
    + left. apply Hmem, Hx.
    + left. apply Hmem, Hx.
  - unfold unblock_ip.
    destruct run as [rc|ex]; [destruct (rc =? 0)|]; cbn;
      rewrite List.filter_app, length_app; cbn [List.filter is_deny length];
      (split; [|lia]); intros x Hx; apply in_or_app; left; apply Hmem.
    + apply elem_of_difference in Hx. destruct Hx as [Hx _]. exact Hx.
    + exact Hx.
    + exact Hx.
Qed.

(** X20. Nothing is blocked without a command: in every reachable
    state each address of the blocked set has had its deny command
    run, and the blocked counter lies between 0 and the number of deny
    commands run. *)
Theorem blocked_only_by_command (d : detector) (st : ids_state) :
  reachable d st ->
  (forall ip, ip ∈ blocked_ips st -> In (Deny ip) (commands_run st))
  /\ 0 <= ips_blocked st
  /\ ips_blocked st <= Z.of_nat (length (List.filter is_deny (commands_run st))).
Proof.
  intros [actions ->].
  cut ((forall ip, ip ∈ blocked_ips (fold_left (step d) actions initial_state) ->
                   In (Deny ip)
                      (commands_run (fold_left (step d) actions initial_state)))
       /\ 0 <= ips_blocked (fold_left (step d) actions initial_state)
               <= Z.of_nat
                    (length
                       (List.filter is_deny
                          (commands_run (fold_left (step d) actions initial_state))))).
  { intros (Hmem & Hlo & Hhi). repeat split; assumption. }
  apply (fold_left_preserves (step d)
           (fun s => (forall ip, ip ∈ blocked_ips s -> In (Deny ip) (commands_run s))
                     /\ 0 <= ips_blocked s
                             <= Z.of_nat (length (List.filter is_deny (commands_run s))))).
  - intros s a [Hmem Hcount]. apply step_commands_invariant; assumption.
  - cbn. split; [|lia]. intros ip Hip. apply not_elem_of_empty in Hip.
    contradiction.
Qed.

Lemma blocked_only_by_command_witness :
  let st := step no_detector initial_state (Block (Return 0) sample_ip) in
  (forall ip, ip ∈ blocked_ips st -> In (Deny ip) (commands_run st))
  /\ 0 <= ips_blocked st
  /\ ips_blocked st <= Z.of_nat (length (List.filter is_deny (commands_run st))).
Proof.
  apply (blocked_only_by_command no_detector
           (step no_detector initial_state (Block (Return 0) sample_ip))).
  exists [Block (Return 0) sample_ip]. reflexivity.
Defined.

(** ** Start-up and the classifier's reach *)

Lemma ingest_detector_independent d1 d2 events st1 st2 :
  last_packet_time st1 = last_packet_time st2 ->
  total_packets st1 = total_packets st2 ->
  checksum_failures st1 = checksum_failures st2 ->
  last_packet_time (ingest d1 events st1) = last_packet_time (ingest d2 events st2)
  /\ total_packets (ingest d1 events st1) = total_packets (ingest d2 events st2)
  /\ checksum_failures (ingest d1 events st1)
     = checksum_failures (ingest d2 events st2).
Proof.
  revert st1 st2. induction events as [|[e msg] events IH];
    intros st1 st2 Hl Ht Hc.
  - repeat split; assumption.
  - rewrite !ingest_cons. cbn [fst snd]. apply IH.
    + rewrite !on_message_last_packet_time, Hl. reflexivity.
    + rewrite !on_message_total_packets, Ht,
        (features_of_last_packet_time e msg st1 st2 Hl). reflexivity.
    + rewrite !on_message_checksum_failures, Hc. reflexivity.
Qed.

(** X21. What the classifier can change: the timing table, the packet
    counter and the checksum-failure counter after a run are the same
    for any two detectors; only the attack counter and the attack log
    depend on the model. *)
Theorem classifier_reach (d1 d2 : detector) (events : list (env * message)) :
  last_packet_time (ingest d1 events initial_state)
  = last_packet_time (ingest d2 events initial_state)
  /\ total_packets (ingest d1 events initial_state)
     = total_packets (ingest d2 events initial_state)
  /\ checksum_failures (ingest d1 events initial_state)
     = checksum_failures (ingest d2 events initial_state).
Proof.
  apply (ingest_detector_independent d1 d2 events initial_state initial_state);
    reflexivity.
Qed.

(** X22. Demo mode: when loading the model file raises, and just the
    same when the file holds a dict without a model entry, no model is
    set; then no message of any run is flagged or logged, while the
    packets are counted as with any detector. *)
Theorem load_failure_is_demo_mode (loaded : outcome model_data)
    (events : list (env * message)) :
  (exists ex, loaded = Raise ex)
  \/ (exists sc, loaded = Return (ModelDict None sc)) ->
  ml_model (load_model loaded) = None
  /\ attacks_detected (ingest (load_model loaded) events initial_state) = 0
  /\ attack_log (ingest (load_model loaded) events initial_state) = []
  /\ (forall d,
        total_packets (ingest (load_model loaded) events initial_state)
        = total_packets (ingest d events initial_state)).
Proof.
  intros Hload.
  assert (Hnone : ml_model (load_model loaded) = None).
  { destruct Hload as [[ex ->] | [sc ->]]; reflexivity. }
  assert (Hzero : attacks_detected (ingest (load_model loaded) events initial_state)
                  = 0).
  { apply (fold_left_preserves _ (fun st => attacks_detected st = 0)).
    - intros st [e msg] Hst. cbn [fst snd].
      rewrite on_message_attacks_detected_no_model; assumption.
    - reflexivity. }
  split; [exact Hnone|]. split; [exact Hzero|]. split.
  - destruct (ingest_counters (load_model loaded) events initial_state)
      as (_ & _ & _ & Hlog & _).
    rewrite Hzero in Hlog. cbn [initial_state attack_log attacks_detected length] in Hlog.
    destruct (attack_log _); [reflexivity|]. cbn [length] in Hlog. lia.
  - intros d.
    apply (ingest_detector_independent (load_model loaded) d events
             initial_state initial_state eq_refl eq_refl eq_refl).
Qed.

Lemma load_failure_is_demo_mode_witness :
  ml_model (load_model (Raise OtherError)) = None
  /\ attacks_detected
       (ingest (load_model (Raise OtherError))
          [(env_at 1%float, {| msg_topic := sample_topic; msg_payload := [] |})]
          initial_state) = 0
  /\ attack_log
       (ingest (load_model (Raise OtherError))
          [(env_at 1%float, {| msg_topic := sample_topic; msg_payload := [] |})]
          initial_state) = []
  /\ (forall d,
        total_packets
          (ingest (load_model (Raise OtherError))
             [(env_at 1%float, {| msg_topic := sample_topic; msg_payload := [] |})]
             initial_state)
        = total_packets
            (ingest d
               [(env_at 1%float, {| msg_topic := sample_topic; msg_payload := [] |})]
               initial_state)).
Proof.
  apply (load_failure_is_demo_mode (Raise OtherError)
           [(env_at 1%float, {| msg_topic := sample_topic; msg_payload := [] |})]).
  left. exists OtherError. reflexivity.
Defined.
